(** * Switzerland: the render pipeline of a custom element

    A shallow embedding of [src/core/utils.js] (the revision that exports
    [dispatchEvent], [getInitialProps], [handleMiddleware] and [handleError]),
    of the pipeline of its earlier revision (module [Legacy]:
    [processMiddleware] and [handleError]), and of the orchestrator that
    drives them, which is modelled from the specification.

    JavaScript objects live in a heap and are passed around by address, so
    that the aliasing the code relies on is kept: [handleMiddleware] stores in
    [errorHandlers] the very object a middleware returned, and then assigns to
    a property of that same object.  The three [WeakMap]s of the module are
    finite maps keyed by the element.  Code that is not part of the module
    (the middleware functions, the recovery handler, the DOM) is a parameter
    of the development, see [host]. *)

From stdpp Require Import base option list gmap strings fin_maps.
From Stdlib Require Import ZArith Ascii DecimalString.

Local Open Scope Z_scope.
Local Open Scope string_scope.
Local Open Scope list_scope.

(** ** Values *)

(** A custom element, by identity (the key of every side table). *)
Definition node := nat.
(** The address of a plain object. *)
Definition loc := nat.
(** The identity of a [Promise]. *)
Definition pid := nat.
(** The identity of a middleware function of a component definition. *)
Definition mwid := nat.

(** Property keys: strings, and the one symbol the module imports,
    [handler] of [middleware/rescue]. *)
Inductive key :=
| KStr (s : string)
| KHandler.

#[global] Instance key_eq_dec : EqDecision key.
Proof. solve_decision. Defined.

#[global] Instance key_countable : Countable key :=
  inj_countable'
    (λ k, match k with KStr s => Some s | KHandler => None end)
    (λ o, match o with Some s => KStr s | None => KHandler end)
    (λ k, match k with KStr _ => eq_refl | KHandler => eq_refl end).

Coercion KStr : string >-> key.

(** The classes of error objects the code tells apart. *)
Inductive error_class :=
| Error
| TypeError
| CancelError.

#[global] Instance error_class_eq_dec : EqDecision error_class.
Proof. solve_decision. Defined.

(** Function values.  The closures the module itself creates are kept
    symbolic, each with what it captured; [FExt] is any function written
    elsewhere. *)
Inductive fn :=
| FRender (n : node)          (* node.render.bind(node) *)
| FDispatch (n : node)        (* dispatchEvent(node) *)
| FResolved (task : pid)      (* async () => { ... scheduledTask ... } *)
| FAbort                      (* () => { throw new CancelError(); } *)
| FRecover (n : node)         (* mergeProps => { setNormal(); return node.render(mergeProps); } *)
| FRecoverOld (n : node)      (* mergeProps => { node[state] = 'normal'; node.render(mergeProps); } *)
| FExt (id : nat).

#[global] Instance fn_eq_dec : EqDecision fn.
Proof. solve_decision. Defined.

(** Numbers are integers here: no claim depends on fractions or [NaN].
    Functions, elements, promises and error objects are objects too, but the
    model keeps no own enumerable properties for them. *)
Inductive value :=
| VUndefined
| VNull
| VBool (b : bool)
| VNum (z : Z)
| VStr (s : string)
| VObj (l : loc)
| VFun (f : fn)
| VNode (n : node)
| VPromise (p : pid)
| VErr (c : error_class) (msg : string).

#[global] Instance value_eq_dec : EqDecision value.
Proof. solve_decision. Defined.

(** The own enumerable properties of an object. *)
Abbreviation props := (gmap key value).

(** [typeof v]. *)
Definition typeof (v : value) : string :=
  match v with
  | VUndefined => "undefined"
  | VNull => "object"
  | VBool _ => "boolean"
  | VNum _ => "number"
  | VStr _ => "string"
  | VObj _ | VNode _ | VPromise _ | VErr _ _ => "object"
  | VFun _ => "function"
  end.

(** [a !== b]: primitives by value, objects by identity. *)
Definition strict_neq (a b : value) : bool := bool_decide (a ≠ b).

(** The state of a promise. *)
Inductive pstate :=
| Pending
| Fulfilled (v : value)
| Rejected (e : value).

#[global] Instance pstate_eq_dec : EqDecision pstate.
Proof. solve_decision. Defined.

(** The two states of an element's life cycle. *)
Inductive lstate :=
| LNormal
| LError.

#[global] Instance lstate_eq_dec : EqDecision lstate.
Proof. solve_decision. Defined.

(** What the module does to the outside, in order. *)
Inductive effect :=
| Console (method : string) (text : value)
    (* console[method](`.. Switzerland: ${text}.`) *)
| Dispatched (n : node) (name : value) (detail : loc) (bubbles composed : bool)
    (* n.dispatchEvent(new CustomEvent(name, { detail, bubbles, composed })) *)
| Stepped (m : mwid) (arg : loc)
    (* a middleware function called with the object at [arg] *)
| Called (f : fn) (args : list value)
    (* a function value called with [args] *)
| ViewRendered (n : node) (snapshot : loc)
    (* the view of the element rendered from a snapshot *)
| FlagAdded (n : node) (flag : string)
    (* n.classList.add(flag) *)
| Notified (n : node) (name : string).
    (* the orchestrator's outbound notification *)

#[global] Instance effect_eq_dec : EqDecision effect.
Proof. solve_decision. Defined.

(** ** The state of the program *)

Record world := World {
  heap : list props;               (* the objects, by address *)
  promises : list pstate;          (* the promises, by identity *)
  previousProps : gmap node loc;   (* const previousProps = new WeakMap() *)
  errorHandlers : gmap node loc;   (* const errorHandlers = new WeakMap() *)
  lifecycle : gmap node lstate;    (* node[meta].state *)
  queue : gmap node (gset pid);    (* node[meta].queue *)
  connected : gset node;           (* node.isConnected *)
  out : list effect;
}.

Definition empty_world : world :=
  World [] [] ∅ ∅ ∅ ∅ ∅ [].

Definition set_heap (f : list props → list props) (w : world) : world :=
  World (f (heap w)) (promises w) (previousProps w) (errorHandlers w)
        (lifecycle w) (queue w) (connected w) (out w).
Definition set_promises (f : list pstate → list pstate) (w : world) : world :=
  World (heap w) (f (promises w)) (previousProps w) (errorHandlers w)
        (lifecycle w) (queue w) (connected w) (out w).
Definition set_previousProps (f : gmap node loc → gmap node loc) (w : world) : world :=
  World (heap w) (promises w) (f (previousProps w)) (errorHandlers w)
        (lifecycle w) (queue w) (connected w) (out w).
Definition set_errorHandlers (f : gmap node loc → gmap node loc) (w : world) : world :=
  World (heap w) (promises w) (previousProps w) (f (errorHandlers w))
        (lifecycle w) (queue w) (connected w) (out w).
Definition set_lifecycle (f : gmap node lstate → gmap node lstate) (w : world) : world :=
  World (heap w) (promises w) (previousProps w) (errorHandlers w)
        (f (lifecycle w)) (queue w) (connected w) (out w).
Definition set_queue (f : gmap node (gset pid) → gmap node (gset pid)) (w : world) : world :=
  World (heap w) (promises w) (previousProps w) (errorHandlers w)
        (lifecycle w) (f (queue w)) (connected w) (out w).
Definition set_out (f : list effect → list effect) (w : world) : world :=
  World (heap w) (promises w) (previousProps w) (errorHandlers w)
        (lifecycle w) (queue w) (connected w) (f (out w)).

(** ** Computations: state, and exceptions that keep the state *)

Inductive completion (A : Type) :=
| Normal (a : A)
| Throw (e : value).
Arguments Normal {A} a.
Arguments Throw {A} e.

Definition M (A : Type) : Type := world → world * completion A.

#[global] Instance M_ret : MRet M := λ A a w, (w, Normal a).
#[global] Instance M_bind : MBind M := λ A B f m w,
  match m w with
  | (w', Normal a) => f a w'
  | (w', Throw e) => (w', Throw e)
  end.

Definition throw {A} (e : value) : M A := λ w, (w, Throw e).
Definition gets {A} (f : world → A) : M A := λ w, (w, Normal (f w)).
Definition modify (f : world → world) : M unit := λ w, (f w, Normal tt).

(** [try { c } catch (e) { .. }], with the outcome of [c] made a value. *)
Definition try {A} (c : M A) : M (completion A) := λ w,
  let '(w', r) := c w in (w', Normal r).

(** [try { c } finally { f }]. *)
Definition finally {A} (c : M A) (f : M unit) : M A := λ w,
  let '(w1, r) := c w in
  match f w1 with
  | (w2, Normal _) => (w2, r)
  | (w2, Throw e) => (w2, Throw e)
  end.

Definition emit (e : effect) : M unit := modify (set_out (λ o, o ++ [e])).

(** ** Objects *)

(** [new Object] with the given properties. *)
Definition alloc (o : props) : M loc := λ w,
  (set_heap (λ h, h ++ [o]) w, Normal (length (heap w))).

Definition fields (h : list props) (l : loc) : props := default ∅ (h !! l).

(** The characters of a string under their indices, as [{ ..."ab" }] has
    them. *)
Fixpoint chars (i : nat) (s : string) : props :=
  match s with
  | EmptyString => ∅
  | String c rest =>
      <[KStr (NilEmpty.string_of_uint (Nat.to_uint i)) := VStr (String c EmptyString)]>
        (chars (S i) rest)
  end.

(** What [{ ...v }] copies. *)
Definition own_fields (h : list props) (v : value) : props :=
  match v with
  | VObj l => fields h l
  | VStr s => chars 0 s
  | _ => ∅
  end.

(** [{ ...target, ...source }]: the later spread wins. *)
Definition spread (target source : props) : props := source ∪ target.

(** [l[k] = v] (nothing when no object is at [l]). *)
Definition set_field (l : loc) (k : key) (v : value) : M unit :=
  modify (set_heap (λ h, <[l := <[k := v]> (fields h l)]> h)).

(** [l[k]]. *)
Definition get_field (l : loc) (k : key) : M value :=
  gets (λ w, default VUndefined (fields (heap w) l !! k)).

(** [k in l]. *)
Definition has_key (l : loc) (k : key) : M bool :=
  gets (λ w, bool_decide (is_Some (fields (heap w) l !! k))).

(** ** Promises *)

Definition promise_state (w : world) (p : pid) : pstate :=
  default Pending (promises w !! p).

Definition new_promise (st : pstate) : M pid := λ w,
  (set_promises (λ ps, ps ++ [st]) w, Normal (length (promises w))).

(** [Promise.resolve(v)], for a [v] that is not a promise. *)
Definition Promise_resolve (v : value) : M pid := new_promise (Fulfilled v).

(** The promise that wins a race: each entry subscribes in turn, so among
    entries that are settled already the first of the array is served first;
    an entry that is still pending can only be served later. *)
Fixpoint race (states : list pstate) : pstate :=
  match states with
  | [] => Pending
  | Pending :: rest => race rest
  | st :: _ => st
  end.

(** [Promise.race(ps)]. *)
Definition Promise_race (ps : list pid) : M pid :=
  states ← gets (λ w, promise_state w <$> ps);
  new_promise (race states).

(** ** What the module is given *)

(** What a middleware function hands back when it does not throw: a props
    object, or a promise of one (the file documents the middleware list as
    [[(p → Promise p|p)]]).  [k] is what has happened to the heap by the time
    the promise settles, and how it settles. *)
Inductive settled :=
| Resolves (l : loc)
| Rejects (e : value).

Inductive step_value :=
| Props (l : loc)
| Promise (k : list props → list props * settled).

(** The code around the module.  In this record middleware functions and
    other foreign functions work on the objects they can reach, not on the
    module's side tables, which are not exported: a function that calls one
    of the closures it is handed ([render], [dispatch], the recovery
    callback) before it returns is not of this kind.  [Reentrant.host],
    further down, is the host whose functions may do that. *)
Record host := Host {
  (* node.render, looked up on the element when it is called *)
  node_render : node → value → M value;
  (* node.dispatchEvent(event): what the element answers *)
  node_dispatchEvent : node → value → props → bool;
  (* the middleware functions of the element's definition *)
  middleware_of : node → list mwid;
  (* a middleware function, applied to the object at an address *)
  middleware_run : mwid → list props → loc → list props * completion step_value;
  (* any other foreign function, applied to its arguments *)
  foreign_run : nat → list props → list value → list props * completion value;
}.

(** ** Life cycle and queue of an element *)

(** Modelled from the spec: the life-cycle state of an element ([core/state]
    is absent from the sources): one of two states, [normal] at first. *)
Definition state_of (w : world) (n : node) : lstate :=
  default LNormal (lifecycle w !! n).

(** Modelled from the spec: [state.setNormal()], the transition to
    [normal]. *)
Definition setNormal (n : node) : M unit :=
  modify (set_lifecycle <[n := LNormal]>).

(** Modelled from the spec: [state.setError()], the transition to [error]. *)
Definition setError (n : node) : M unit :=
  modify (set_lifecycle <[n := LError]>).

(** Modelled from the spec: [state.isError()]. *)
Definition isError (n : node) : M bool :=
  gets (λ w, bool_decide (state_of w n = LError)).

(** Modelled from the spec: the task registry of an element ([core/queue] is
    absent from the sources): a set of task handles, a handle being the
    pending completion of its pass. *)
Definition tasks_of (w : world) (n : node) : gset pid :=
  default ∅ (queue w !! n).

(** Modelled from the spec: [queue.enqueue()] creates and registers a new
    task. *)
Definition enqueue (n : node) : M pid :=
  task ← new_promise Pending;
  modify (λ w, set_queue <[n := {[task]} ∪ tasks_of w n]> w);;
  mret task.

(** Modelled from the spec: [queue.isEmpty()], whether no task is
    registered. *)
Definition isEmpty (n : node) : M bool :=
  gets (λ w, bool_decide (tasks_of w n = ∅)).

(** Modelled from the spec: [queue.isInvalid(task)], whether the handle is no
    longer registered. *)
Definition isInvalid (n : node) (task : pid) : M bool :=
  gets (λ w, bool_decide (task ∉ tasks_of w n)).

(** Modelled from the spec: [queue.drop(task)] removes the task. *)
Definition drop (n : node) (task : pid) : M unit :=
  modify (λ w, set_queue <[n := tasks_of w n ∖ {[task]}]> w).

(** Modelled from the spec: the class [CancelError] ([core/impl] is absent
    from the sources): an error is the cancellation signal by its class, not
    by its message. *)
Definition is_cancel (e : value) : bool :=
  match e with
  | VErr CancelError _ => true
  | _ => false
  end.

(** ** [core/utils.js] *)

Section utils.

Context (H : host).

(** [consoleMessage(text, type = 'error')]; the effect records the text that
    the template is filled with. *)
Definition consoleMessage (text : value) (type : string) : M unit :=
  emit (Console type text).

(** [dispatchEvent(node)(name, payload)]. *)
Definition dispatchEvent (node : node) (name payload : value) : M value :=
  model ← (if decide (typeof payload = "object") then mret payload
           else wrapped ← alloc {[ KStr "value" := payload ]}; mret (VObj wrapped));
  h ← gets heap;
  let detail := <[KStr "version" := VNum 3]> (own_fields h model) in
  event ← alloc detail;
  emit (Dispatched node name event true true);;
  mret (VBool (node_dispatchEvent H node name detail)).

(** The [resolved] closure of [getInitialProps]. *)
Definition resolved (scheduledTask : pid) : M value :=
  no ← Promise_resolve (VBool false);
  first ← Promise_race [scheduledTask; no];
  (* the promise of the async function follows the one it awaits *)
  st ← gets (λ w, promise_state w first);
  answer ← new_promise
    match st with
    | Fulfilled resolution => Fulfilled (VBool (strict_neq resolution (VBool false)))
    | Rejected e => Rejected e
    | Pending => Pending
    end;
  mret (VPromise answer).

(** The [abort] closure of [getInitialProps]. *)
Definition abort : M value := throw (VErr CancelError EmptyString).

(** The [render] closure that [handleError] hands to the recovery handler. *)
Definition recover (node : node) (mergeProps : value) : M value :=
  setNormal node;;
  node_render H node mergeProps.

(** The same closure in the earlier revision of the file, which does not
    return what [render] returned. *)
Definition recover_old (node : node) (mergeProps : value) : M value :=
  setNormal node;;
  node_render H node mergeProps;;
  mret VUndefined.

Definition arg (i : nat) (args : list value) : value :=
  default VUndefined (args !! i).

(** Applying a function value. *)
Definition apply (f : fn) (args : list value) : M value :=
  match f with
  | FRender n => node_render H n (arg 0 args)
  | FDispatch n => dispatchEvent n (arg 0 args) (arg 1 args)
  | FResolved task => resolved task
  | FAbort => abort
  | FRecover n => recover n (arg 0 args)
  | FRecoverOld n => recover_old n (arg 0 args)
  | FExt id => λ w,
      let '(h, r) := foreign_run H id (heap w) args in
      (set_heap (λ _, h) w, r)
  end.

(** [callee(...args)]. *)
Definition call (callee : value) (args : list value) : M value :=
  match callee with
  | VFun f => emit (Called f args);; apply f args
  | _ => throw (VErr TypeError "not a function")
  end.

(** [getInitialProps(node, mergeProps, scheduledTask)]. *)
Definition getInitialProps (node : node) (mergeProps : value) (scheduledTask : pid)
    : M loc :=
  prev ← gets (λ w, previousProps w !! node);
  h ← gets heap;
  let o := spread ∅ (from_option (fields h) ∅ prev) in
  let o := spread o (own_fields h mergeProps) in
  let o := <[KStr "node" := VNode node]> o in
  let o := <[KStr "render" := VFun (FRender node)]> o in
  let o := <[KStr "dispatch" := VFun (FDispatch node)]> o in
  let o := <[KStr "prevProps" := from_option VObj VNull prev]> o in
  let o := <[KStr "resolved" := VFun (FResolved scheduledTask)]> o in
  let o := <[KStr "abort" := VFun FAbort]> o in
  alloc o.

(** [middleware({ ...props })], the call itself. *)
Definition call_middleware (m : mwid) (arg : loc) : M step_value := λ w,
  let w := set_out (λ o, o ++ [Stepped m arg]) w in
  let '(h, r) := middleware_run H m (heap w) arg in
  (set_heap (λ _, h) w, r).

(** Waiting for what a step handed back. *)
Definition await (v : step_value) : M loc :=
  match v with
  | Props l => mret l
  | Promise k => λ w,
      match k (heap w) with
      | (h, Resolves l) => (set_heap (λ _, h) w, Normal l)
      | (h, Rejects e) => (set_heap (λ _, h) w, Throw e)
      end
  end.

(** [handler in newProps && errorHandlers.set(node, newProps)]: a promise is
    an object without the symbol. *)
Definition register (node : node) (newProps : step_value) : M unit :=
  match newProps with
  | Props l =>
      found ← has_key l KHandler;
      if found : bool then modify (set_errorHandlers <[node := l]>) else mret tt
  | Promise _ => mret tt
  end.

(** The function that [handleMiddleware] reduces with: an async function of
    the promise of the props so far and of the next middleware function
    (which it awaits too: awaiting a function gives the function). *)
Definition reducer (node : node) (accumP : M loc) (middlewareP : mwid) : M loc :=
  props ← accumP;
  set_field props "props" (VObj props);;
  copy ← (o ← gets (λ w, fields (heap w) props); alloc o);
  newProps ← call_middleware middlewareP copy;
  register node newProps;;
  await newProps.

(** [handleMiddleware(node, initialProps, middleware)]: [reduce] chains one
    promise per middleware function, each awaiting the one before. *)
Definition handleMiddleware (node : node) (initialProps : loc) (middleware : list mwid)
    : M loc :=
  props ← fold_left (reducer node) middleware (mret initialProps);
  modify (set_previousProps <[node := props]>);;
  mret props.

(** [handleError(node, error)]. *)
Definition handleError (node : node) (error : value) : M value :=
  props ← gets (λ w, errorHandlers w !! node);
  match props with
  | None => consoleMessage error "error";; mret VUndefined
  | Some props =>
      o ← gets (λ w, fields (heap w) props);
      snapshot ← alloc (<[KStr "error" := error]> o);
      modify (set_previousProps <[node := snapshot]>);;
      callee ← get_field props KHandler;
      o ← gets (λ w, fields (heap w) props);
      argument ← alloc (<[KStr "render" := VFun (FRecover node)]>
                          (<[KStr "error" := error]> o));
      call callee [VObj argument];;
      mret VUndefined
  end.

End utils.

(** ** [core/utils.js], the earlier revision *)

(** [processMiddleware] and [handleError] as the earlier revision of the file
    has them.  Its [previous] and [handlers] maps are [previousProps] and
    [errorHandlers] here, and [node[state]] is the element's life cycle. *)
Module Legacy.
Section utils.

Context (H : host).

(** The function that [processMiddleware] reduces with. *)
Definition reducer (node : node) (accumP : M loc) (middleware : mwid) : M loc :=
  props ← accumP;
  o ← gets (λ w, fields (heap w) props);
  copy ← alloc (<[KStr "props" := VObj props]> o);
  newProps ← call_middleware H middleware copy;
  register node newProps;;
  await newProps.

(** [processMiddleware(node, initialProps, middleware)]. *)
Definition processMiddleware (node : node) (initialProps : loc)
    (middleware : list mwid) : M loc :=
  props ← fold_left (reducer node) middleware (mret initialProps);
  modify (set_previousProps <[node := props]>);;
  mret props.

(** [handleError(node, error)]. *)
Definition handleError (node : node) (error : value) : M value :=
  props ← gets (λ w, errorHandlers w !! node);
  match props with
  | None => consoleMessage error "error";; mret VUndefined
  | Some props =>
      o ← gets (λ w, fields (heap w) props);
      snapshot ← alloc (<[KStr "error" := error]> o);
      modify (set_previousProps <[node := snapshot]>);;
      callee ← get_field props KHandler;
      o ← gets (λ w, fields (heap w) props);
      argument ← alloc (<[KStr "render" := VFun (FRecoverOld node)]>
                          (<[KStr "error" := error]> o));
      call H callee [VObj argument];;
      mret VUndefined
  end.

End utils.
End Legacy.

(** ** The orchestrator *)

(** Modelled from the spec: steps 3 and 4 of the render entry point
    ([core/impl] is absent from the sources, its tests are there): build the
    initial props and run the pipeline on them. *)
Definition pipeline (H : host) (node : node) (overrideProps : value) (task : pid)
    : M loc :=
  initialProps ← getInitialProps node overrideProps task;
  handleMiddleware H node initialProps (middleware_of H node).

(** Modelled from the spec: step 5 of the render entry point, after a
    pipeline that succeeded: nothing if the task was dropped meanwhile;
    otherwise the view is rendered and, if the element is still attached, the
    flag is set and the notification sent. *)
Definition commit (node : node) (task : pid) (snapshot : loc) : M unit :=
  invalid ← isInvalid node task;
  if invalid : bool then mret tt else
  emit (ViewRendered node snapshot);;
  attached ← gets (λ w, bool_decide (node ∈ connected w));
  if attached : bool then
    emit (FlagAdded node "resolved");;
    emit (Notified node "resolved")
  else mret tt.

(** Modelled from the spec: step 6 of the render entry point, after a
    pipeline that threw: nothing for the cancellation signal; for any other
    error the error state, the recovery, and the notification. *)
Definition fail (H : host) (node : node) (e : value) : M unit :=
  if is_cancel e then mret tt else
  setError node;;
  handleError H node e;;
  emit (Notified node "resolved").

(** Modelled from the spec: steps 2 to 7 of the render entry point: register
    a task, run the pipeline, commit or recover, and remove the task whatever
    happened. *)
Definition pass (H : host) (node : node) (overrideProps : value) : M value :=
  task ← enqueue node;
  finally
    (outcome ← try (pipeline H node overrideProps task);
     match outcome with
     | Normal snapshot => commit node task snapshot
     | Throw e => fail H node e
     end;;
     mret VUndefined)
    (drop node task).

(** Modelled from the spec: the render entry point: in the error state it
    returns at once, otherwise it runs a pass. *)
Definition render (H : host) (node : node) (overrideProps : value) : M value :=
  refused ← isError node;
  if refused : bool then mret VUndefined else pass H node overrideProps.
(** ** Worlds and hosts used in the examples *)

(** A host whose element answers [true] to every event, has no middleware
    and whose foreign functions do nothing. *)
Definition idle_host : host :=
  Host (λ _ _, mret VUndefined) (λ _ _ _, true) (λ _, [])
       (λ _ h l, (h, Normal (Props l)))
       (λ _ h _, (h, Normal VUndefined)).

(** The helpers that [getInitialProps] writes last. *)
Definition helpers (n : node) (prev : option loc) (task : pid) : props :=
  {[ KStr "node" := VNode n;
     KStr "render" := VFun (FRender n);
     KStr "dispatch" := VFun (FDispatch n);
     KStr "prevProps" := from_option VObj VNull prev;
     KStr "resolved" := VFun (FResolved task);
     KStr "abort" := VFun FAbort ]}.

(** The helpers as the specification lists them: the same without [node]. *)
Definition helpers_listed (n : node) (prev : option loc) (task : pid) : props :=
  {[ KStr "render" := VFun (FRender n);
     KStr "dispatch" := VFun (FDispatch n);
     KStr "prevProps" := from_option VObj VNull prev;
     KStr "resolved" := VFun (FResolved task);
     KStr "abort" := VFun FAbort ]}.

(** The first match of three layers: helpers, then overrides, then the
    previous snapshot. *)
Definition layered (top middle bottom : props) (k : key) : option value :=
  match top !! k with
  | Some v => Some v
  | None =>
      match middle !! k with
      | Some v => Some v
      | None => bottom !! k
      end
  end.

(** A world whose only object is an override [{ node: 'mine' }]. *)
Definition world_with_node_override : world :=
  set_heap (λ _, [ {[ KStr "node" := VStr "mine" ]} ]) empty_world.

(** A world in which element 5 has one task, promise 0, registered and still
    pending. *)
Definition world_pending_task : world :=
  set_queue <[5%nat := {[0%nat]}]> (set_promises (λ _, [Pending]) empty_world).

(** A world in which element 5 is in the error state and has a registered
    snapshot, the object at address 0, whose handler is foreign function 7. *)
Definition world_registered : world :=
  set_lifecycle <[5%nat := LError]>
    (set_errorHandlers <[5%nat := 0%nat]>
       (set_heap (λ _, [ {[ KHandler := VFun (FExt 7) ]} ]) empty_world)).

(** A host whose elements have the orchestrator's [render] for their
    [render] method. *)
Definition rendering_host : host :=
  Host (render idle_host) (λ _ _ _, true) (λ _, [])
       (λ _ h l, (h, Normal (Props l)))
       (λ _ h _, (h, Normal VUndefined)).

(** ** The executor as the specification words it *)

(** The middleware list is folded left to right over an accumulator: each
    step is run on the accumulated props, its value is waited for, and the
    value is the accumulator of the steps that remain; a step that throws
    ends the fold there.  [step] is what the executor does for one
    middleware function, given the props so far. *)
Fixpoint fold_steps (step : M loc → mwid → M loc) (acc : loc)
    (steps : list mwid) : M loc :=
  match steps with
  | [] => mret acc
  | m :: rest =>
      next ← step (mret acc) m;
      fold_steps step next rest
  end.

(** After the whole list, the snapshot is persisted as the element's previous
    props and returned. *)
Definition run_pipeline (step : M loc → mwid → M loc) (node : node)
    (initialProps : loc) (steps : list mwid) : M loc :=
  final ← fold_steps step initialProps steps;
  modify (set_previousProps <[node := final]>);;
  mret final.

(** The effects of the middleware calls themselves. *)
Definition is_step (e : effect) : bool :=
  match e with
  | Stepped _ _ => true
  | _ => false
  end.

(** What a pipeline run may change besides the heap and the registration:
    nothing but the trace, and that by middleware calls only. *)
Definition steps_only (w w' : world) : Prop :=
  promises w' = promises w
  ∧ previousProps w' = previousProps w
  ∧ lifecycle w' = lifecycle w
  ∧ queue w' = queue w
  ∧ connected w' = connected w
  ∧ ∃ steps : list effect,
      out w' = out w ++ steps ∧ Forall (λ e, is_step e = true) steps.

(** A computation keeps a relation between the world it starts in and the
    world it ends in. *)
Definition keeps {A} (R : world → world → Prop) (c : M A) : Prop :=
  ∀ w : world, R w (c w).1.

(** A host whose elements are defined with the middleware list [steps],
    of these functions: 0 returns, synchronously, a copy of its argument with
    a recovery handler under the marker; 1 returns a promise of a copy of its
    argument with a [data] property; 2 returns a promise of a copy of its
    argument with a recovery handler under the marker; 3 calls [abort()];
    every other one throws a plain error. *)
Definition host_with (steps : list mwid) : host :=
  Host (λ _ _, mret VUndefined) (λ _ _ _, true) (λ _, steps)
       (λ m h l,
          match m with
          | 0%nat =>
              (h ++ [<[KHandler := VFun (FExt 7)]> (fields h l)],
               Normal (Props (length h)))
          | 1%nat =>
              (h, Normal (Promise (λ h',
                 (h' ++ [<[KStr "data" := VNum 42]> (fields h l)],
                  Resolves (length h')))))
          | 2%nat =>
              (h, Normal (Promise (λ h',
                 (h' ++ [<[KHandler := VFun (FExt 8)]> (fields h l)],
                  Resolves (length h')))))
          | 3%nat => (h, Throw (VErr CancelError EmptyString))
          | _ => (h, Throw (VErr Error "boom"))
          end)
       (λ _ h _, (h, Normal VUndefined)).

Definition sample_host : host := host_with [0; 1; 3; 0]%nat.

(** A host whose middleware function 1 returns a promise that, by the time it
    settles, has made three objects, and is fulfilled with the second of
    them, a copy of the step's argument with a [data] property; every other
    function returns a promise that is rejected. *)
Definition deferring_host : host :=
  Host (λ _ _, mret VUndefined) (λ _ _ _, true) (λ _, [1; 1]%nat)
       (λ m h l,
          match m with
          | 1%nat =>
              (h, Normal (Promise (λ h',
                 (h' ++ [∅; <[KStr "data" := VNum 42]> (fields h' l); ∅],
                  Resolves (S (length h'))))))
          | _ =>
              (h, Normal (Promise (λ h', (h', Rejects (VErr Error "late")))))
          end)
       (λ _ h _, (h, Normal VUndefined)).

(** A world whose only object is an empty initial props object. *)
Definition world_initial : world :=
  set_heap (λ _, [∅]) empty_world.

(** A world in which element 5 is attached and has an empty initial state. *)
Definition world_attached : world :=
  World [] [] ∅ ∅ ∅ ∅ {[5%nat]} [].

(** ** The rest of [core/utils.js]: event names, tag names, shadow roots *)

(** [getEventName(label)]: the template [`@switzerland/${label}`]. *)
Definition getEventName (label : string) : string := "@switzerland/" +:+ label.

(** The sixteen digits of [Number.prototype.toString(16)]. *)
Definition hex_digit (d : nat) : ascii :=
  match d with
  | 0%nat => "0"%char | 1%nat => "1"%char | 2%nat => "2"%char | 3%nat => "3"%char
  | 4%nat => "4"%char | 5%nat => "5"%char | 6%nat => "6"%char | 7%nat => "7"%char
  | 8%nat => "8"%char | 9%nat => "9"%char | 10%nat => "a"%char | 11%nat => "b"%char
  | 12%nat => "c"%char | 13%nat => "d"%char | 14%nat => "e"%char | _ => "f"%char
  end.

(** The digits of [n] in base 16, the most significant first; [fuel] bounds
    their number. *)
Fixpoint hex_go (fuel : nat) (n : N) : string :=
  match fuel with
  | O => EmptyString
  | S fuel' =>
      if (n <? 16)%N then String (hex_digit (N.to_nat n)) EmptyString
      else hex_go fuel' (n / 16)%N
             +:+ String (hex_digit (N.to_nat (n mod 16)%N)) EmptyString
  end.

(** [n.toString(16)] for a non-negative integer: a number below [2^k] has at
    most [k] digits. *)
Definition toString16 (n : N) : string := hex_go (S (N.to_nat (N.log2 n))) n.

(** [getRandomId()]: [random] is what [crypto.getRandomValues] draws; the
    [Uint32Array] cell keeps it modulo [2^32]. *)
Definition getRandomId (random : N) : string := toString16 (random mod 2 ^ 32)%N.

(** Reading a string of lower-case hexadecimal digits back as a number. *)
Definition digit_value (c : ascii) : option N :=
  let n := N_of_ascii c in
  if (48 <=? n)%N && (n <=? 57)%N then Some (n - 48)%N
  else if (97 <=? n)%N && (n <=? 102)%N then Some (n - 87)%N
  else None.

Fixpoint hex_value_from (acc : N) (s : string) : option N :=
  match s with
  | EmptyString => Some acc
  | String c rest =>
      match digit_value c with
      | Some d => hex_value_from (16 * acc + d)%N rest
      | None => None
      end
  end.

Definition hex_value (s : string) : option N :=
  match s with
  | EmptyString => None
  | _ => hex_value_from 0%N s
  end.

(** [findFreeTagName(name, suffix = null)] ([resolveTagName] in the earlier
    revision).  [registry] holds the names [window.customElements] has a
    definition for; [randoms] is what the successive calls of [getRandomId]
    draw, and the result is [None] when the list is used up before a free
    name is found.  An empty suffix is falsy, like [null]. *)
Fixpoint findFreeTagName (registry : gset string) (randoms : list N)
    (name : string) (suffix : option string) : option string :=
  let tag :=
    match suffix with
    | Some (String c s) => name +:+ "-" +:+ String c s
    | Some EmptyString | None => name
    end in
  if decide (tag ∈ registry) then
    match randoms with
    | [] => None
    | random :: randoms' =>
        findFreeTagName registry randoms' tag (Some (getRandomId random))
    end
  else Some tag.

(** The strings of at least [n] characters. *)
Definition at_least (n : nat) (s : string) : Prop := (n ≤ String.length s)%nat.

#[global] Instance at_least_dec (n : nat) (s : string) : Decision (at_least n s).
Proof. unfold at_least. apply _. Defined.

(** What a custom element extends: [window.HTMLElement], or the constructor
    of the element that [document.createElement(tag)] makes. *)
Inductive prototype :=
| HTMLElement
| ConstructorOf (tag : string).

(** [determinePrototype(tag)] ([getPrototype] in the earlier revision); a
    missing part of the name is [undefined]. *)
Definition determinePrototype (tag : option string) : prototype :=
  match tag with
  | Some (String c s) => ConstructorOf (String c s)
  | Some EmptyString | None => HTMLElement
  end.

(** [s.split(sep)] for a separator of one character. *)
Fixpoint split (sep : ascii) (s : string) : list string :=
  match s with
  | EmptyString => [EmptyString]
  | String c rest =>
      if decide (c = sep) then EmptyString :: split sep rest
      else
        match split sep rest with
        | part :: parts => String c part :: parts
        | [] => [String c EmptyString]
        end
  end.

(** [parseTagName(name)]. *)
Definition parseTagName (registry : gset string) (randoms : list N) (name : string)
    : option string * prototype :=
  let parts := split "/"%char name in
  (findFreeTagName registry randoms (default EmptyString (parts !! 0%nat)) None,
   determinePrototype (parts !! 1%nat)).

(** A shadow root, by identity. *)
Definition root := nat.

(** The third side table of the module, and the calls of [attachShadow] made
    so far, each with the element, the options it was given and the root it
    returned ([None] when it threw). *)
Record shadows := Shadows {
  shadowBoundaries : gmap node root;   (* const shadowBoundaries = new WeakMap() *)
  attachments : list (node * props * option root);
}.

Definition no_shadows : shadows := Shadows ∅ [].

(** [const defaultOptions = { mode: 'open', delegatesFocus: false }]. *)
Definition defaultOptions : props :=
  {[ KStr "mode" := VStr "open"; KStr "delegatesFocus" := VBool false ]}.

(** What [createShadowRoot] returns: a shadow root, or an element. *)
Definition root_or_element : Type := root + node.

(** [createShadowRoot(node, options = {})].  [attachShadow] is the DOM's
    answer to [node.attachShadow(options)] given the calls made before; the
    result is the root, or the element itself when attaching threw. *)
Definition createShadowRoot
    (attachShadow : list (node * props * option root) → node → props → option root)
    (node : node) (options : props) (s : shadows) : shadows * root_or_element :=
  match shadowBoundaries s !! node with
  | Some cached => (s, inl cached)
  | None =>
      let given := spread defaultOptions options in
      let answer := attachShadow (attachments s) node given in
      let log := attachments s ++ [(node, given, answer)] in
      match answer with
      | Some made => (Shadows (<[node := made]> (shadowBoundaries s)) log, inl made)
      | None => (Shadows (shadowBoundaries s) log, inr node)
      end
  end.

(** Any number of calls of [createShadowRoot] in a row. *)
Definition createShadowRoots
    (attachShadow : list (node * props * option root) → node → props → option root)
    (calls : list (node * props)) (s : shadows) : shadows :=
  fold_left (λ s call, (createShadowRoot attachShadow call.1 call.2 s).1) calls s.

(** The elements that [attachShadow] succeeded on, in order. *)
Definition attached (log : list (node * props * option root)) : list node :=
  omap (λ entry, match entry.2 with Some _ => Some entry.1.1 | None => None end) log.

(** What holds of the side table and the calls of [attachShadow] after any
    number of calls of [createShadowRoot]: no element was attached to twice,
    and the elements of the table are the ones attached to. *)
Definition attached_once (s : shadows) : Prop :=
  NoDup (attached (attachments s))
  ∧ ∀ n : node, n ∈ attached (attachments s) ↔ is_Some (shadowBoundaries s !! n).

(** ** The rest of the earlier revision *)

Module LegacyUtils.

(** [dispatchEvent(node)(name, payload)]: the payload is spread as it is, and
    the call returns nothing. *)
Definition dispatchEvent (node : node) (name payload : value) : M value :=
  h ← gets heap;
  event ← alloc (<[KStr "version" := VStr "3.0.0"]> (own_fields h payload));
  emit (Dispatched node name event true true);;
  mret VUndefined.

(** [getInitialProps(node, mergeProps, scheduledTask)].  [dispatchEvent] is
    the function value of the module's own [dispatchEvent], which the
    snapshot holds as it is, not applied to the element. *)
Definition getInitialProps (dispatchEvent : value) (node : node)
    (mergeProps : value) (scheduledTask : pid) : M loc :=
  prevProps ← gets (λ w, previousProps w !! node);
  h ← gets heap;
  let o := spread ∅ (from_option (fields h) ∅ prevProps) in
  let o := spread o (own_fields h mergeProps) in
  let o := <[KStr "isResolved" := VFun (FResolved scheduledTask)]> o in
  let o := <[KStr "node" := VNode node]> o in
  let o := <[KStr "render" := VFun (FRender node)]> o in
  let o := <[KStr "dispatch" := dispatchEvent]> o in
  let o := <[KStr "prevProps" := from_option VObj VNull prevProps]> o in
  alloc o.

(** [isRemotePath(path)]. *)
Definition isRemotePath (path : string) : bool :=
  String.prefix "http://" path
  || String.prefix "https://" path
  || String.prefix "://" path.

(** The characters of the class [[-[\]/{}()*+?.\\^$|]]. *)
Definition special (c : ascii) : bool :=
  bool_decide (c ∈ String.list_ascii_of_string "-[]/{}()*+?.\^$|").

(** [escapeRegExp(value)]: every character of the class gets a backslash in
    front ([replace(.., '\\$&')] with the [g] flag). *)
Fixpoint escapeRegExp (value : string) : string :=
  match value with
  | EmptyString => EmptyString
  | String c rest =>
      if special c then String "\"%char (String c (escapeRegExp rest))
      else String c (escapeRegExp rest)
  end.

(** The capture groups of one match of [urlsRegexp] that [getUrls] reads:
    3, 5, 6, 9, 11 and 12 ([None] for a group that did not take part). *)
Record url_match := UrlMatch {
  group3 : option string;
  group5 : option string;
  group6 : option string;
  group9 : option string;
  group11 : option string;
  group12 : option string;
}.

(** [a || b] on captures: [undefined] and the empty string are falsy. *)
Definition or_else (a b : option string) : option string :=
  match a with
  | Some (String _ _) => a
  | Some EmptyString | None => b
  end.

(** [urlMatch[3] || urlMatch[5] || urlMatch[6] || urlMatch[9] || urlMatch[11]
    || urlMatch[12]]. *)
Definition matched_url (m : url_match) : option string :=
  or_else (group3 m) (or_else (group5 m) (or_else (group6 m)
    (or_else (group9 m) (or_else (group11 m) (group12 m))))).

(** The body of the [while] loop of [getUrls]: the url is pushed when it is
    truthy, not embedded and not in the list yet. *)
Definition push_url (isEmbedded : string → bool) (urls : list string)
    (m : url_match) : list string :=
  match matched_url m with
  | Some (String c s) =>
      if negb (isEmbedded (String c s)) && bool_decide (String c s ∉ urls)
      then urls ++ [String c s] else urls
  | Some EmptyString | None => urls
  end.

(** [getUrls(text)], given the successive matches of [urlsRegexp] in the text
    without its comments. *)
Definition getUrls (isEmbedded : string → bool) (matches : list url_match)
    : list string :=
  fold_left (push_url isEmbedded) matches [].

(** [parseStylesheetPaths(data)], given the same matches and the test of the
    regular expression [embeddedRegexp]. *)
Definition parseStylesheetPaths (isEmbedded : string → bool)
    (matches : list url_match) : list string :=
  filter (λ path, isRemotePath path = false) (getUrls isEmbedded matches).

(** Reading a regular expression of plain characters and escaped special
    characters back as the string it matches: [None] when a special
    character stands unescaped or a backslash escapes anything else. *)
Fixpoint literal_of (pattern : string) : option string :=
  match pattern with
  | EmptyString => Some EmptyString
  | String c rest =>
      if decide (c = "\"%char) then
        match rest with
        | String d rest' =>
            if special d then String d <$> literal_of rest' else None
        | EmptyString => None
        end
      else if special c then None
      else String c <$> literal_of rest
  end.

(** The helpers that the earlier [getInitialProps] writes last. *)
Definition helpers (dispatchEvent : value) (n : node) (prev : option loc)
    (task : pid) : props :=
  {[ KStr "isResolved" := VFun (FResolved task);
     KStr "node" := VNode n;
     KStr "render" := VFun (FRender n);
     KStr "dispatch" := dispatchEvent;
     KStr "prevProps" := from_option VObj VNull prev ]}.

End LegacyUtils.


(** ** Middleware and handlers that call back

    In [host] a middleware function and a foreign function act on the
    objects of the heap.  The code lets them do more: they are handed
    closures ([render], [dispatch], the recovery callback) and may call them
    before they return.  Here they are computations like any other, and the
    functions of the module are the same code over such a host. *)

Definition plain_host : Type := host.

Module Reentrant.

(** What a step hands back: a props object, or a promise; [k] is what
    happens until the promise settles, and what it is fulfilled with (it
    throws what the promise is rejected with). *)
Inductive step_value :=
| Props (l : loc)
| Promise (k : M loc).

Record host := Host {
  (* the element's render and dispatchEvent methods *)
  plain : plain_host;
  (* a middleware function, applied to the object at an address *)
  middleware_run : mwid → loc → M step_value;
  (* any other foreign function, applied to its arguments *)
  foreign_run : nat → list value → M value;
}.

Section utils.

Context (H : host).

(** Applying a function value. *)
Definition apply (f : fn) (args : list value) : M value :=
  match f with
  | FExt id => foreign_run H id args
  | _ => apply (plain H) f args
  end.

(** [callee(...args)]. *)
Definition call (callee : value) (args : list value) : M value :=
  match callee with
  | VFun f => emit (Called f args);; apply f args
  | _ => throw (VErr TypeError "not a function")
  end.

(** [middleware({ ...props })], the call itself. *)
Definition call_middleware (m : mwid) (arg : loc) : M step_value :=
  emit (Stepped m arg);;
  middleware_run H m arg.

(** Waiting for what a step handed back. *)
Definition await (v : step_value) : M loc :=
  match v with
  | Props l => mret l
  | Promise k => k
  end.

(** [handler in newProps && errorHandlers.set(node, newProps)]. *)
Definition register (node : node) (newProps : step_value) : M unit :=
  match newProps with
  | Props l =>
      found ← has_key l KHandler;
      if found : bool then modify (set_errorHandlers <[node := l]>) else mret tt
  | Promise _ => mret tt
  end.

(** The function that [handleMiddleware] reduces with. *)
Definition reducer (node : node) (accumP : M loc) (middlewareP : mwid) : M loc :=
  props ← accumP;
  set_field props "props" (VObj props);;
  copy ← (o ← gets (λ w, fields (heap w) props); alloc o);
  newProps ← call_middleware middlewareP copy;
  register node newProps;;
  await newProps.

(** [handleMiddleware(node, initialProps, middleware)]. *)
Definition handleMiddleware (node : node) (initialProps : loc) (middleware : list mwid)
    : M loc :=
  props ← fold_left (reducer node) middleware (mret initialProps);
  modify (set_previousProps <[node := props]>);;
  mret props.

(** [handleError(node, error)]. *)
Definition handleError (node : node) (error : value) : M value :=
  props ← gets (λ w, errorHandlers w !! node);
  match props with
  | None => consoleMessage error "error";; mret VUndefined
  | Some props =>
      o ← gets (λ w, fields (heap w) props);
      snapshot ← alloc (<[KStr "error" := error]> o);
      modify (set_previousProps <[node := snapshot]>);;
      callee ← get_field props KHandler;
      o ← gets (λ w, fields (heap w) props);
      argument ← alloc (<[KStr "render" := VFun (FRecover node)]>
                          (<[KStr "error" := error]> o));
      call callee [VObj argument];;
      mret VUndefined
  end.

End utils.
End Reentrant.

(** A promise of a [host], as a computation. *)
Definition settle (k : list props → list props * settled) : M loc :=
  await (Promise k).

(** A [host] seen as one whose functions may call back (they do not). *)
Definition reentrant (H : host) : Reentrant.host :=
  Reentrant.Host H
    (λ m arg w,
       match middleware_run H m (heap w) arg with
       | (h, Normal (Props l)) => (set_heap (λ _, h) w, Normal (Reentrant.Props l))
       | (h, Normal (Promise k)) =>
           (set_heap (λ _, h) w, Normal (Reentrant.Promise (settle k)))
       | (h, Throw e) => (set_heap (λ _, h) w, Throw e)
       end)
    (λ id args, apply H (FExt id) args).

(** ** Relations between the worlds before and after a call *)

(** No element has lost its registration. *)
Definition registrations_kept (w w' : world) : Prop :=
  ∀ n : node, is_Some (errorHandlers w !! n) → is_Some (errorHandlers w' !! n).

(** Nothing of an element other than [n] has changed: previous props,
    registration, life-cycle state and tasks are the ones it had. *)
Definition elsewhere_kept (n : node) (w w' : world) : Prop :=
  ∀ n' : node, n' ≠ n →
    previousProps w' !! n' = previousProps w !! n'
    ∧ errorHandlers w' !! n' = errorHandlers w !! n'
    ∧ lifecycle w' !! n' = lifecycle w !! n'
    ∧ queue w' !! n' = queue w !! n'.

(** A host whose elements' [render] registers a task for the element before
    it returns, whose middleware function 0 calls the [render] of element 5
    and returns its argument, whose middleware function 1 returns a promise
    that calls that [render] again before it is fulfilled with the step's
    argument, and whose foreign function 7, a recovery handler, calls the
    recovery callback of the object it is handed. *)
Definition calling_host : Reentrant.host :=
  let around :=
    Host (λ n _, enqueue n;; mret VUndefined) (λ _ _ _, true) (λ _, [0; 1]%nat)
         (λ _ h l, (h, Normal (Props l)))
         (λ _ h _, (h, Normal VUndefined)) in
  Reentrant.Host around
    (λ m arg,
       match m with
       | 0%nat => call around (VFun (FRender 5%nat)) [VUndefined];;
                  mret (Reentrant.Props arg)
       | _ => mret (Reentrant.Promise
                      (call around (VFun (FRender 5%nat)) [VUndefined];; mret arg))
       end)
    (λ _ args,
       match args with
       | VObj argument :: _ =>
           callback ← get_field argument "render";
           call around callback [VUndefined]
       | _ => mret VUndefined
       end).

(** A world in which element 5 has a registered snapshot, the object at
    address 0, whose marker holds [null]. *)
Definition world_bad_handler : world :=
  set_errorHandlers <[5%nat := 0%nat]>
    (set_heap (λ _, [ {[ KHandler := VNull ]} ]) empty_world).
(** ** Basic facts *)

Lemma fields_alloc_new (h : list props) (o : props) :
  fields (h ++ [o]) (length h) = o.
Proof. unfold fields. by rewrite list_lookup_middle. Qed.

Lemma fields_alloc_old (h : list props) (o : props) (l : loc) :
  (l < length h)%nat → fields (h ++ [o]) l = fields h l.
Proof. intros Hl. unfold fields. by rewrite lookup_app_l. Qed.

Lemma promise_state_alloc (w : world) (st : pstate) (p : pid) :
  promise_state (set_promises (λ ps, ps ++ [st]) w) p
  = if decide (p = length (promises w)) then st else promise_state w p.
Proof.
  unfold promise_state. simpl. case_decide as Hp.
  - subst. by rewrite list_lookup_middle.
  - destruct (decide (p < length (promises w))%nat).
    + by rewrite lookup_app_l.
    + rewrite !lookup_ge_None_2; [done|lia|rewrite length_app; simpl; lia].
Qed.

(** Unfolding the monad and its primitives. *)
Ltac run :=
  cbv [mbind M_bind mret M_ret gets modify emit alloc throw try finally
       new_promise set_field get_field has_key consoleMessage
       setNormal setError isError enqueue isEmpty isInvalid drop];
  simpl.

(** ** The outbound dispatch *)

(** C10: [dispatchEvent(node)(name, payload)] dispatches exactly one custom
    event on the node, with [bubbles] and [composed] both true; its detail is
    the payload's own properties (those of [{ value: payload }] when
    [typeof payload] is not ['object']) with [version] set on top; and the
    call returns the boolean that the node's [dispatchEvent] answered. *)
Theorem dispatchEvent_dispatches_once (H : host) (n : node) (name payload : value)
    (w : world) :
  let model :=
    if decide (typeof payload = "object") then own_fields (heap w) payload
    else {[ KStr "value" := payload ]} in
  let detail := <[KStr "version" := VNum 3]> model in
  ∃ (w' : world) (event : loc),
    dispatchEvent H n name payload w
      = (w', Normal (VBool (node_dispatchEvent H n name detail)))
    ∧ out w' = out w ++ [Dispatched n name event true true]
    ∧ heap w' !! event = Some detail.
Proof.
  intros model detail. subst detail model. unfold dispatchEvent.
  destruct (decide (typeof payload = "object")) as [Hobj|Hobj]; run.
  - eexists _, _. split; [reflexivity|]. simpl.
    split; [reflexivity|]. by rewrite list_lookup_middle.
  - rewrite fields_alloc_new.
    eexists _, _. split; [reflexivity|]. simpl.
    split; [reflexivity|]. by rewrite list_lookup_middle.
Qed.

(** ** The initial props *)

Lemma layered_spread (top middle bottom : props) (k : key) :
  (top ∪ spread (spread ∅ bottom) middle) !! k = layered top middle bottom k.
Proof.
  unfold layered, spread. rewrite !lookup_union, lookup_empty.
  destruct (top !! k), (middle !! k), (bottom !! k); reflexivity.
Qed.

(** C8, as amended: the snapshot that [getInitialProps] builds is a new
    object holding the previous snapshot's properties, overridden by those of
    the override props, overridden by the helpers, which are the element
    itself under [node], the bound [render], the bound [dispatch], the
    previous snapshot or [null] under [prevProps], [resolved] and [abort];
    and [abort] throws the cancellation signal whatever it is called with. *)
Theorem getInitialProps_layers (H : host) (n : node) (mergeProps : value)
    (task : pid) (w : world) :
  let prev := previousProps w !! n in
  ∃ snapshot : props,
    getInitialProps n mergeProps task w
      = (set_heap (λ h, h ++ [snapshot]) w, Normal (length (heap w)))
    ∧ (∀ k : key,
         snapshot !! k
         = layered (helpers n prev task) (own_fields (heap w) mergeProps)
                   (from_option (fields (heap w)) ∅ prev) k)
    ∧ (∀ (args : list value) (w0 : world),
         ∃ e, apply H FAbort args w0 = (w0, Throw e) ∧ is_cancel e = true).
Proof.
  intros prev. unfold getInitialProps. run.
  eexists. split; [reflexivity|]. split.
  - intros k. fold prev. rewrite <-layered_spread. f_equal.
    unfold helpers. apply map_eq. intros i.
    rewrite lookup_union, !lookup_insert, lookup_singleton.
    repeat case_decide; simplify_eq; try reflexivity.
    all: by match goal with |- context [?m !! ?j] => destruct (m !! j) end.
  - intros args w0. eexists. split; reflexivity.
Qed.

(** C8, as stated, fails on an override that has a [node] property: [node]
    is not among the helpers the claim lists, so the override's value would
    have to be kept, and the code puts the element there. *)
Lemma getInitialProps_overrides_node :
  fields (heap (getInitialProps 5%nat (VObj 0%nat) 0%nat world_with_node_override).1) 1%nat
    !! KStr "node" = Some (VNode 5%nat)
  ∧ layered (helpers_listed 5%nat None 0%nat)
            (own_fields (heap world_with_node_override) (VObj 0%nat)) ∅
            (KStr "node") = Some (VStr "mine").
Proof. split; vm_compute; reflexivity. Qed.

(** ** The [resolved] helper *)

(** C9, as amended: [resolved()] never waits for the task.  The promise it
    returns is settled from the state the task's promise is in when
    [resolved] is called: fulfilled with [false] while the task is pending,
    fulfilled with whether the task's value is other than [false] once the
    task is fulfilled, rejected if the task was rejected.  It leaves the
    registry as it is. *)
Theorem resolved_answers_at_once (task : pid) (w : world) :
  ∃ (w' : world) (answer : pid),
    resolved task w = (w', Normal (VPromise answer))
    ∧ promise_state w' answer
      = match promise_state w task with
        | Pending => Fulfilled (VBool false)
        | Fulfilled v => Fulfilled (VBool (strict_neq v (VBool false)))
        | Rejected e => Rejected e
        end
    ∧ queue w' = queue w.
Proof.
  unfold resolved, Promise_resolve, Promise_race.
  cbv [mbind M_bind mret M_ret gets new_promise].
  eexists _, _. split; [reflexivity|]. split; [|reflexivity].
  cbn [fmap list_fmap].
  rewrite !promise_state_alloc. simpl.
  rewrite !length_app. simpl.
  repeat (case_decide; try lia); simpl.
  - subst task. unfold promise_state.
    rewrite lookup_ge_None_2 by lia. reflexivity.
  - by destruct (promise_state w task).
Qed.

(** C9, as stated, fails while the task is pending and still registered:
    the promise that [resolved()] returns is fulfilled with [false] then,
    it does not stay pending until the task completes or is dropped. *)
Lemma resolved_does_not_wait :
  promise_state world_pending_task 0%nat = Pending
  ∧ bool_decide (0%nat ∈ tasks_of world_pending_task 5%nat) = true
  ∧ (resolved 0%nat world_pending_task).2 = Normal (VPromise 3%nat)
  ∧ promise_state (resolved 0%nat world_pending_task).1 3%nat
    = Fulfilled (VBool false).
Proof. repeat split; vm_compute; reflexivity. Qed.

(** ** The error recovery *)

Lemma fields_is_Some (h : list props) (l : loc) (k : key) (v : value) :
  fields h l !! k = Some v → (l < length h)%nat.
Proof.
  unfold fields. intros Hk.
  destruct (decide (l < length h)%nat) as [|Hge]; [done|].
  rewrite lookup_ge_None_2 in Hk by lia. simpl in Hk.
  by apply lookup_empty_Some in Hk.
Qed.

(** With a registration whose handler is a function, [handleError] comes
    down to calling the handler in the world [w1]. *)
Lemma handleError_found (H : host) (n : node) (e : value) (w : world)
    (registered : loc) (f : fn) :
  errorHandlers w !! n = Some registered →
  fields (heap w) registered !! KHandler = Some (VFun f) →
  let snapshot := fields (heap w) registered in
  let w1 :=
    set_out (λ o, o ++ [Called f [VObj (S (length (heap w)))]])
      (set_heap
         (λ h, h ++ [<[KStr "error" := e]> snapshot;
                     <[KStr "render" := VFun (FRecover n)]>
                       (<[KStr "error" := e]> snapshot)])
         (set_previousProps <[n := length (heap w)]> w)) in
  handleError H n e w
  = (apply H f [VObj (S (length (heap w)))] ≫= λ _, mret VUndefined) w1.
Proof.
  intros Hreg Hf snapshot w1. subst snapshot w1.
  pose proof (fields_is_Some _ _ _ _ Hf) as Hlt.
  unfold handleError, call. run. rewrite Hreg. simpl.
  rewrite fields_alloc_old by done. rewrite Hf. simpl.
  rewrite length_app. simpl.
  replace (length (heap w) + 1)%nat with (S (length (heap w))) by lia.
  match goal with
  | |- (let (_, _) := apply _ _ _ ?a in _) = (let (_, _) := apply _ _ _ ?b in _) =>
      replace a with b; [reflexivity|]
  end.
  unfold set_out, set_heap, set_previousProps. simpl. by rewrite <-app_assoc.
Qed.

(** C1: without a registration for the element, [handleError] logs the error
    once and changes nothing else; with one whose handler is a function, it
    first allocates the registered snapshot merged with the error and makes
    it the element's previous props, and then calls the handler, once, with
    a new object that holds the registered snapshot, the error, and the
    recovery callback under [render].  The registration is left as it is. *)
Theorem handleError_logs_or_recovers (H : host) (n : node) (e : value) (w : world) :
  (errorHandlers w !! n = None →
   handleError H n e w
   = (set_out (λ o, o ++ [Console "error" e]) w, Normal VUndefined))
  ∧ (∀ (registered : loc) (f : fn),
       errorHandlers w !! n = Some registered →
       fields (heap w) registered !! KHandler = Some (VFun f) →
       let snapshot := fields (heap w) registered in
       let persisted := length (heap w) in
       let argument := S (length (heap w)) in
       ∃ w1 : world,
         handleError H n e w
         = (apply H f [VObj argument] ≫= λ _, mret VUndefined) w1
         ∧ previousProps w1 = <[n := persisted]> (previousProps w)
         ∧ heap w1
           = heap w ++ [<[KStr "error" := e]> snapshot;
                        <[KStr "render" := VFun (FRecover n)]>
                          (<[KStr "error" := e]> snapshot)]
         ∧ out w1 = out w ++ [Called f [VObj argument]]
         ∧ errorHandlers w1 = errorHandlers w
         ∧ lifecycle w1 = lifecycle w
         ∧ queue w1 = queue w).
Proof.
  split.
  - intros Hnone. unfold handleError. run. by rewrite Hnone.
  - intros registered f Hreg Hf snapshot persisted argument.
    eexists. split; [by apply handleError_found|]. by repeat split.
Qed.

Lemma handleError_logs_or_recovers_witness :
  ∃ w1 : world,
    handleError idle_host 5%nat (VErr Error "boom") world_registered
    = (apply idle_host (FExt 7) [VObj 2%nat] ≫= λ _, mret VUndefined) w1
    ∧ previousProps w1 = <[5%nat := 1%nat]> (previousProps world_registered)
    ∧ heap w1
      = heap world_registered
        ++ [<[KStr "error" := VErr Error "boom"]> (fields (heap world_registered) 0%nat);
            <[KStr "render" := VFun (FRecover 5%nat)]>
              (<[KStr "error" := VErr Error "boom"]>
                 (fields (heap world_registered) 0%nat))]
    ∧ out w1 = out world_registered ++ [Called (FExt 7) [VObj 2%nat]]
    ∧ errorHandlers w1 = errorHandlers world_registered
    ∧ lifecycle w1 = lifecycle world_registered
    ∧ queue w1 = queue world_registered.
Proof.
  apply (proj2 (handleError_logs_or_recovers idle_host 5%nat (VErr Error "boom")
                  world_registered) 0%nat (FExt 7)); vm_compute; reflexivity.
Defined.

Lemma render_accepts (H : host) (n : node) (overrides : value) (w : world) :
  state_of w n = LNormal → render H n overrides w = pass H n overrides w.
Proof. intros Hn. unfold render. run. by rewrite Hn. Qed.

(** C6: the [render] callback that [handleError] passes to a registered
    handler, called with override props, first sets the element's life cycle
    to [normal] and then calls the element's [render] with exactly those
    props; when that is the orchestrator's entry point, the call is not
    refused and runs a pass with them, whatever the state was before. *)
Theorem recover_callback_restarts (H : host) (n : node) (overrides : value)
    (w : world) :
  (∀ (e : value) (registered : loc) (f : fn),
     errorHandlers w !! n = Some registered →
     fields (heap w) registered !! KHandler = Some (VFun f) →
     ∃ (w1 : world) (argument : loc),
       handleError H n e w
       = (apply H f [VObj argument] ≫= λ _, mret VUndefined) w1
       ∧ fields (heap w1) argument !! KStr "render" = Some (VFun (FRecover n)))
  ∧ apply H (FRecover n) [overrides] w
    = node_render H n overrides (set_lifecycle <[n := LNormal]> w)
  ∧ state_of (set_lifecycle <[n := LNormal]> w) n = LNormal
  ∧ (∀ H' : host,
       node_render H = render H' →
       apply H (FRecover n) [overrides] w
       = pass H' n overrides (set_lifecycle <[n := LNormal]> w)).
Proof.
  assert (state_of (set_lifecycle <[n := LNormal]> w) n = LNormal) as Hnormal.
  { unfold state_of. simpl. by rewrite lookup_insert_eq. }
  split; [|split; [|split]].
  - intros e registered f Hreg Hf. eexists _, _.
    split; [by apply handleError_found|]. simpl.
    unfold fields. rewrite lookup_app_r by lia.
    replace (S (length (heap w)) - length (heap w))%nat with 1%nat by lia.
    simpl. by rewrite lookup_insert_eq.
  - reflexivity.
  - exact Hnormal.
  - intros H' Hrender. unfold apply, recover. run. rewrite Hrender.
    by apply render_accepts.
Qed.

Lemma recover_callback_restarts_witness :
  (∃ (w1 : world) (argument : loc),
     handleError rendering_host 5%nat (VErr Error "boom") world_registered
     = (apply rendering_host (FExt 7) [VObj argument] ≫= λ _, mret VUndefined) w1
     ∧ fields (heap w1) argument !! KStr "render" = Some (VFun (FRecover 5%nat)))
  ∧ apply rendering_host (FRecover 5%nat) [VNull] world_registered
    = pass idle_host 5%nat VNull (set_lifecycle <[5%nat := LNormal]> world_registered).
Proof.
  split.
  - apply (proj1 (recover_callback_restarts rendering_host 5%nat VNull
                    world_registered) (VErr Error "boom") 0%nat (FExt 7));
      vm_compute; reflexivity.
  - apply (proj2 (proj2 (proj2 (recover_callback_restarts rendering_host 5%nat VNull
                                  world_registered))) idle_host).
    reflexivity.
Defined.

(** ** The pipeline *)

Lemma bind_assoc {A B C} (m : M A) (f : A → M B) (g : B → M C) (w : world) :
  ((m ≫= f) ≫= g) w = (m ≫= λ a, f a ≫= g) w.
Proof.
  cbv [mbind M_bind]. destruct (m w) as [w1 [a|e]]; [|reflexivity].
  reflexivity.
Qed.

Lemma bind_ext {A B} (m : M A) (f g : A → M B) (w : world) :
  (∀ a w', f a w' = g a w') → (m ≫= f) w = (m ≫= g) w.
Proof.
  intros Hfg. cbv [mbind M_bind]. destruct (m w) as [w1 [a|e]]; [|reflexivity].
  apply Hfg.
Qed.

Lemma steps_only_refl (w : world) : steps_only w w.
Proof.
  repeat split. exists []. split; [by rewrite app_nil_r|constructor].
Qed.

Lemma steps_only_trans (w1 w2 w3 : world) :
  steps_only w1 w2 → steps_only w2 w3 → steps_only w1 w3.
Proof.
  intros (?&?&?&?&?&t1&Ht1&Hs1) (?&?&?&?&?&t2&Ht2&Hs2).
  repeat split; try congruence.
  exists (t1 ++ t2). split; [by rewrite Ht2, Ht1, app_assoc|by apply Forall_app].
Qed.

Lemma keeps_bind {A B} (m : M A) (f : A → M B) :
  keeps steps_only m → (∀ a, keeps steps_only (f a)) → keeps steps_only (m ≫= f).
Proof.
  intros Hm Hf w. specialize (Hm w). cbv [mbind M_bind].
  destruct (m w) as [w1 [a|e]]; simpl in *; [|done].
  eapply steps_only_trans; [exact Hm|apply Hf].
Qed.

(** *** Reducing with any step function

    Both revisions reduce the middleware list with an async function and
    persist the outcome; what follows holds for any such function that
    starts by awaiting the props so far, calls one middleware function and
    leaves the side tables other than the registration alone. *)
Section fold.

Variable step : M loc → mwid → M loc.
Variable n : node.

Hypothesis step_bind : ∀ (accumP : M loc) (m : mwid) (w : world),
  step accumP m w = (accumP ≫= λ acc, step (mret acc) m) w.
Hypothesis step_steps_only : ∀ (acc : loc) (m : mwid),
  keeps steps_only (step (mret acc) m).
Hypothesis step_out : ∀ (acc : loc) (m : mwid) (w : world),
  ∃ copy : loc, out (step (mret acc) m w).1 = out w ++ [Stepped m copy].

(** The chain of promises that [reduce] builds runs the steps one after the
    other. *)
Lemma fold_left_step (steps : list mwid) :
  ∀ (accumP : M loc) (w : world),
    fold_left step steps accumP w = (accumP ≫= λ acc, fold_steps step acc steps) w.
Proof.
  induction steps as [|m rest IH]; intros accumP w; simpl.
  - cbv [mbind M_bind mret M_ret]. by destruct (accumP w) as [w1 [acc|e]].
  - rewrite IH. rewrite <-bind_assoc.
    cbv [mbind M_bind]. rewrite step_bind. reflexivity.
Qed.

Lemma reduce_run_pipeline (initialProps : loc) (steps : list mwid) (w : world) :
  (fold_left step steps (mret initialProps) ≫= λ props,
     modify (set_previousProps <[n := props]>) ≫= λ _, mret props) w
  = run_pipeline step n initialProps steps w.
Proof.
  unfold run_pipeline. cbv [mbind M_bind]. rewrite fold_left_step.
  cbv [mbind M_bind mret M_ret]. reflexivity.
Qed.

Lemma fold_steps_steps_only (steps : list mwid) :
  ∀ acc : loc, keeps steps_only (fold_steps step acc steps).
Proof.
  induction steps as [|m rest IH]; intros acc; simpl.
  - intros w. apply steps_only_refl.
  - apply keeps_bind; [apply step_steps_only|exact IH].
Qed.

Lemma fold_steps_app (pre rest : list mwid) :
  ∀ (acc : loc) (w : world),
    fold_steps step acc (pre ++ rest) w
    = (fold_steps step acc pre ≫= λ a, fold_steps step a rest) w.
Proof.
  induction pre as [|m pre IH]; intros acc w; simpl.
  - reflexivity.
  - rewrite bind_assoc. apply bind_ext. intros a w'. apply IH.
Qed.

(** A fold that completes has called every step, once. *)
Lemma fold_steps_count (steps : list mwid) :
  ∀ (acc : loc) (w w' : world) (final : loc),
    fold_steps step acc steps w = (w', Normal final) →
    ∃ t : list effect, out w' = out w ++ t ∧ length t = length steps.
Proof.
  induction steps as [|m rest IH]; intros acc w w' final; simpl.
  - intros [= <- _]. exists []. by rewrite app_nil_r.
  - cbv [mbind M_bind].
    destruct (step_out acc m w) as [copy Hout].
    destruct (step (mret acc) m w) as [w1 [next|e]]; [|done].
    intros Hrest. destruct (IH _ _ _ _ Hrest) as (t & Ht & Hlen).
    exists (Stepped m copy :: t). simpl in Hout.
    split; [by rewrite Ht, Hout, <-app_assoc|simpl; by rewrite Hlen].
Qed.

(** A run that completes returns the last value and has persisted it. *)
Lemma run_pipeline_persists (initialProps : loc) (steps : list mwid)
    (w w' : world) (final : loc) :
  run_pipeline step n initialProps steps w = (w', Normal final) →
  previousProps w' !! n = Some final
  ∧ ∃ w'' : world,
      fold_steps step initialProps steps w = (w'', Normal final)
      ∧ w' = set_previousProps <[n := final]> w''.
Proof.
  unfold run_pipeline. run.
  destruct (fold_steps step initialProps steps w) as [w'' [l|e]]; [|done].
  intros [= <- <-]. simpl. split; [by rewrite lookup_insert_eq|].
  by eexists.
Qed.

(** A run that throws has persisted nothing. *)
Lemma run_pipeline_throws (initialProps : loc) (steps : list mwid)
    (w w' : world) (e : value) :
  run_pipeline step n initialProps steps w = (w', Throw e) → steps_only w w'.
Proof.
  unfold run_pipeline. run.
  pose proof (fold_steps_steps_only steps initialProps w) as Hkeep.
  destruct (fold_steps step initialProps steps w) as [w'' [l|e']]; [done|].
  by intros [= <- _].
Qed.

(** A step that throws ends the run there. *)
Lemma run_pipeline_aborts (initialProps : loc) (pre : list mwid) (m : mwid)
    (post : list mwid) (w wa : world) (acc : loc) (wb : world) (e : value) :
  fold_steps step initialProps pre w = (wa, Normal acc) →
  step (mret acc) m wa = (wb, Throw e) →
  run_pipeline step n initialProps (pre ++ m :: post) w = (wb, Throw e)
  ∧ previousProps wb = previousProps w
  ∧ ∃ t : list effect,
      out wb = out w ++ t
      ∧ length t = S (length pre)
      ∧ Forall (λ x, is_step x = true) t.
Proof.
  intros Hpre Hm.
  assert (run_pipeline step n initialProps (pre ++ m :: post) w = (wb, Throw e))
    as Hrun.
  { unfold run_pipeline. cbv [mbind M_bind]. rewrite fold_steps_app.
    cbv [mbind M_bind]. rewrite Hpre. simpl.
    cbv [mbind M_bind]. by rewrite Hm. }
  split; [exact Hrun|].
  destruct (run_pipeline_throws _ _ _ _ _ Hrun)
    as (_ & Hprev & _ & _ & _ & t & Ht & Hsteps).
  split; [exact Hprev|]. exists t. split; [exact Ht|]. split; [|exact Hsteps].
  destruct (fold_steps_count _ _ _ _ _ Hpre) as (t1 & Ht1 & Hlen1).
  destruct (step_out acc m wa) as [copy Hout].
  rewrite Hm in Hout. simpl in Hout.
  rewrite Hout, Ht1, <-app_assoc in Ht. apply app_inv_head in Ht.
  rewrite <-Ht, length_app, Hlen1. simpl. lia.
Qed.

End fold.

Ltac one_step :=
  repeat split; eexists [_]; split; [reflexivity|by repeat constructor].

(** *** The step of [handleMiddleware] *)

Lemma reducer_bind (H : host) (n : node) (accumP : M loc) (m : mwid) (w : world) :
  reducer H n accumP m w = (accumP ≫= λ acc, reducer H n (mret acc) m) w.
Proof.
  unfold reducer. cbv [mbind M_bind mret M_ret].
  destruct (accumP w) as [w1 [acc|e]]; reflexivity.
Qed.

Lemma reducer_steps_only (H : host) (n : node) (acc : loc) (m : mwid) :
  keeps steps_only (reducer H n (mret acc) m).
Proof.
  intros w. unfold reducer, call_middleware, register, await. run.
  destruct (middleware_run H m _ _) as [h [[l|k]|e]]; simpl.
  - run. case_bool_decide; simpl; one_step.
  - run. destruct (k h) as [h' [l|e]]; simpl; one_step.
  - one_step.
Qed.

Lemma reducer_out (H : host) (n : node) (acc : loc) (m : mwid) (w : world) :
  ∃ copy : loc, out (reducer H n (mret acc) m w).1 = out w ++ [Stepped m copy].
Proof.
  unfold reducer, call_middleware, register, await. run.
  destruct (middleware_run H m _ _) as [h [[l|k]|e]]; simpl.
  - run. case_bool_decide; simpl; by eexists.
  - run. destruct (k h) as [h' [l|e]]; simpl; by eexists.
  - by eexists.
Qed.

(** What one step does to an accumulator that is an object of the heap. *)
Lemma reducer_step (H : host) (n : node) (acc : loc) (m : mwid) (w : world) :
  (acc < length (heap w))%nat →
  let o := <[KStr "props" := VObj acc]> (fields (heap w) acc) in
  let copy := length (heap w) in
  let w1 :=
    set_out (λ t, t ++ [Stepped m copy])
      (set_heap (λ h, <[acc := o]> h ++ [o]) w) in
  reducer H n (mret acc) m w
  = match middleware_run H m (heap w1) copy with
    | (h, Normal handed) =>
        (register n handed ≫= λ _, await handed) (set_heap (λ _, h) w1)
    | (h, Throw e) => (set_heap (λ _, h) w1, Throw e)
    end.
Proof.
  intros Hacc o copy w1. subst o copy w1.
  unfold reducer, call_middleware. run.
  rewrite length_insert.
  assert (fields (<[acc := <[KStr "props" := VObj acc]> (fields (heap w) acc)]> (heap w)) acc
          = <[KStr "props" := VObj acc]> (fields (heap w) acc)) as ->.
  { unfold fields at 1. by rewrite list_lookup_insert_eq. }
  destruct (middleware_run H m _ _) as [h [handed|e]]; reflexivity.
Qed.

Lemma handleMiddleware_run_pipeline (H : host) (n : node) (initialProps : loc)
    (steps : list mwid) (w : world) :
  handleMiddleware H n initialProps steps w
  = run_pipeline (reducer H n) n initialProps steps w.
Proof. apply reduce_run_pipeline, reducer_bind. Qed.

(** C3: [handleMiddleware] computes what the fold of the specification
    computes: the steps run left to right from the initial props (a run
    without steps returns the initial props, a run of a step and others is
    the step followed by the run of the others from the value the step came
    to), each after the value of the one before has been waited for.  A step
    is called with a new object that holds the accumulated props and, under
    [props], a reference to the accumulator, which has the same reference set
    on itself; its value is the object it returned or, when it returned a
    promise, the object the promise is fulfilled with once it has settled,
    and a promise that is rejected makes the step throw.  When no step
    throws, the last value is returned and is the element's previous props
    afterwards. *)
Theorem handleMiddleware_folds (H : host) (n : node) (initialProps : loc)
    (steps : list mwid) (w : world) :
  handleMiddleware H n initialProps steps w
  = run_pipeline (reducer H n) n initialProps steps w
  ∧ handleMiddleware H n initialProps [] w
    = (set_previousProps <[n := initialProps]> w, Normal initialProps)
  ∧ (∀ (m : mwid) (rest : list mwid),
       handleMiddleware H n initialProps (m :: rest) w
       = match reducer H n (mret initialProps) m w with
         | (w1, Normal next) => handleMiddleware H n next rest w1
         | (w1, Throw e) => (w1, Throw e)
         end)
  ∧ (∀ (acc : loc) (m : mwid) (w0 : world),
       (acc < length (heap w0))%nat →
       let o := <[KStr "props" := VObj acc]> (fields (heap w0) acc) in
       ∃ (w1 : world) (copy : loc),
         heap w1 !! copy = Some o
         ∧ heap w1 !! acc = Some o
         ∧ copy ≠ acc
         ∧ out w1 = out w0 ++ [Stepped m copy]
         ∧ w1 = set_out (λ t, t ++ [Stepped m copy])
                  (set_heap (λ h, <[acc := o]> h ++ [o]) w0)
         ∧ reducer H n (mret acc) m w0
           = match middleware_run H m (heap w1) copy with
             | (h, Normal (Props l)) =>
                 (if bool_decide (is_Some (fields h l !! KHandler))
                  then set_errorHandlers <[n := l]> (set_heap (λ _, h) w1)
                  else set_heap (λ _, h) w1,
                  Normal l)
             | (h, Normal (Promise k)) =>
                 match k h with
                 | (h', Resolves l) => (set_heap (λ _, h') w1, Normal l)
                 | (h', Rejects e) => (set_heap (λ _, h') w1, Throw e)
                 end
             | (h, Throw e) => (set_heap (λ _, h) w1, Throw e)
             end)
  ∧ (∀ (w' : world) (final : loc),
       handleMiddleware H n initialProps steps w = (w', Normal final) →
       previousProps w' !! n = Some final
       ∧ ∃ w'' : world,
           fold_steps (reducer H n) initialProps steps w = (w'', Normal final)
           ∧ w' = set_previousProps <[n := final]> w'').
Proof.
  split; [apply handleMiddleware_run_pipeline|].
  split; [reflexivity|]. split; [|split].
  - intros m rest. rewrite handleMiddleware_run_pipeline.
    unfold run_pipeline. simpl. cbv [mbind M_bind].
    destruct (reducer H n (mret initialProps) m w) as [w1 [next|e]];
      [|reflexivity].
    rewrite handleMiddleware_run_pipeline. reflexivity.
  - intros acc m w0 Hacc o.
    exists (set_out (λ t, t ++ [Stepped m (length (heap w0))])
              (set_heap (λ h, <[acc := o]> h ++ [o]) w0)), (length (heap w0)).
    split; [|split; [|split; [|split; [|split; [reflexivity|]]]]]; simpl.
    + rewrite <-(length_insert (heap w0) acc o). apply list_lookup_middle.
      reflexivity.
    + rewrite lookup_app_l by (by rewrite length_insert).
      by apply list_lookup_insert_eq.
    + lia.
    + reflexivity.
    + rewrite reducer_step by done. simpl.
      destruct (middleware_run H m _ _) as [h [[l|k]|e]]; [| |reflexivity].
      * unfold register, await. run. by case_bool_decide.
      * unfold register, await. run. by destruct (k h) as [h' [l|e]].
  - intros w' final. rewrite handleMiddleware_run_pipeline.
    apply run_pipeline_persists.
Qed.

Lemma handleMiddleware_folds_witness :
  (∃ (w1 : world) (copy : loc),
     heap w1 !! copy
     = Some (<[KStr "props" := VObj 0%nat]> (fields (heap world_initial) 0%nat))
     ∧ heap w1 !! 0%nat
       = Some (<[KStr "props" := VObj 0%nat]> (fields (heap world_initial) 0%nat))
     ∧ copy ≠ 0%nat
     ∧ out w1 = out world_initial ++ [Stepped 1%nat copy]
     ∧ w1 = set_out (λ t, t ++ [Stepped 1%nat copy])
              (set_heap
                 (λ h, <[0%nat := <[KStr "props" := VObj 0%nat]>
                                    (fields (heap world_initial) 0%nat)]> h
                       ++ [<[KStr "props" := VObj 0%nat]>
                             (fields (heap world_initial) 0%nat)])
                 world_initial)
     ∧ reducer deferring_host 5%nat (mret 0%nat) 1%nat world_initial
       = (set_heap
            (λ _, heap w1 ++ [∅; <[KStr "data" := VNum 42]> (fields (heap w1) copy); ∅])
            w1,
          Normal (S (length (heap w1)))))
  ∧ previousProps
      (handleMiddleware deferring_host 5%nat 0%nat [1%nat; 1%nat] world_initial).1
      !! 5%nat = Some 7%nat
  ∧ handleMiddleware deferring_host 5%nat 0%nat [1%nat; 2%nat; 1%nat] world_initial
    = match reducer deferring_host 5%nat (mret 0%nat) 1%nat world_initial with
      | (w1, Normal next) =>
          handleMiddleware deferring_host 5%nat next [2%nat; 1%nat] w1
      | (w1, Throw e) => (w1, Throw e)
      end.
Proof.
  split; [|split].
  - apply (proj1 (proj2 (proj2 (proj2
             (handleMiddleware_folds deferring_host 5%nat 0%nat
                [1%nat; 1%nat] world_initial)))) 0%nat 1%nat world_initial).
    vm_compute. lia.
  - apply (proj2 (proj2 (proj2 (proj2
             (handleMiddleware_folds deferring_host 5%nat 0%nat
                [1%nat; 1%nat] world_initial))))).
    vm_compute. reflexivity.
  - apply (proj1 (proj2 (proj2
             (handleMiddleware_folds deferring_host 5%nat 0%nat
                [1%nat; 2%nat; 1%nat] world_initial)))).
Defined.



(** ** The registration of a recovery handler *)

(** A step that returns a props object synchronously overwrites the
    element's registration with that very object when the object bears the
    marker, and leaves the registration as it is when it does not. *)
Lemma register_props (n : node) (l : loc) (w : world) :
  register n (Props l) w
  = (if bool_decide (is_Some (fields (heap w) l !! KHandler))
     then set_errorHandlers <[n := l]> w else w,
     Normal tt).
Proof. unfold register. run. by case_bool_decide. Qed.

(** A step that returns a promise registers nothing, whatever the promise is
    fulfilled with. *)
Lemma register_promise (n : node) (k : list props → list props * settled)
    (w : world) :
  register n (Promise k) w = (w, Normal tt).
Proof. reflexivity. Qed.

(** No step of the pipeline removes a registration: an element that has
    one before a step has one after it. *)
Lemma reducer_keeps_registered (H : host) (n : node) (acc : loc) (m : mwid)
    (w : world) :
  is_Some (errorHandlers w !! n) →
  is_Some (errorHandlers (reducer H n (mret acc) m w).1 !! n).
Proof.
  intros Hreg. unfold reducer, call_middleware, register, await. run.
  destruct (middleware_run H m _ _) as [h [[l|k]|e]]; simpl.
  - run. case_bool_decide; simpl; [by rewrite lookup_insert_eq|done].
  - run. by destruct (k h) as [h' [l|e]].
  - done.
Qed.

Lemma reducer_keeps_registered_witness :
  is_Some (errorHandlers
             (reducer sample_host 5%nat (mret 0%nat) 1%nat world_registered).1
           !! 5%nat).
Proof.
  apply (reducer_keeps_registered sample_host 5%nat 0%nat 1%nat world_registered).
  vm_compute. eauto.
Defined.

(** C4, on the code: the marker is looked for in what the step returned, not
    in what that is fulfilled with.  Step 2 of [sample_host] returns a promise
    of a snapshot that bears the marker: run alone, the snapshot (at address
    2) bears the marker and nothing is registered; run after step 0, the
    registration is still the snapshot of step 0 (address 2), not the one of
    the last step that bears the marker (address 4). *)
Lemma async_marker_is_not_registered :
  (handleMiddleware sample_host 5%nat 0%nat [2%nat] world_initial).2 = Normal 2%nat
  ∧ fields (heap (handleMiddleware sample_host 5%nat 0%nat [2%nat] world_initial).1)
           2%nat !! KHandler = Some (VFun (FExt 8))
  ∧ errorHandlers (handleMiddleware sample_host 5%nat 0%nat [2%nat] world_initial).1
    !! 5%nat = None
  ∧ (handleMiddleware sample_host 5%nat 0%nat [0%nat; 2%nat] world_initial).2
    = Normal 4%nat
  ∧ fields (heap (handleMiddleware sample_host 5%nat 0%nat [0%nat; 2%nat]
                    world_initial).1)
           4%nat !! KHandler = Some (VFun (FExt 8))
  ∧ errorHandlers (handleMiddleware sample_host 5%nat 0%nat [0%nat; 2%nat]
                     world_initial).1
    !! 5%nat = Some 2%nat.
Proof. repeat split; vm_compute; reflexivity. Qed.

(** ** The orchestrator *)

(** C2: while the element's life cycle is [error], a call of [render]
    returns at once and leaves the world as it was: no task is registered,
    no middleware is called, nothing is rendered, flagged or notified; and so
    for any number of calls in a row. *)
Theorem render_refused_in_error_state (H : host) (n : node) (w : world) :
  state_of w n = LError →
  (∀ overrides : value, render H n overrides w = (w, Normal VUndefined))
  ∧ (∀ calls : list value,
       fold_left (λ w0 overrides, (render H n overrides w0).1) calls w = w).
Proof.
  intros Herr.
  assert (∀ overrides, render H n overrides w = (w, Normal VUndefined)) as Hone.
  { intros overrides. unfold render. run. by rewrite Herr. }
  split; [exact Hone|].
  induction calls as [|o calls IH]; simpl; [reflexivity|].
  by rewrite Hone.
Qed.

Lemma render_refused_in_error_state_witness :
  (∀ overrides : value,
     render sample_host 5%nat overrides world_registered
     = (world_registered, Normal VUndefined))
  ∧ (∀ calls : list value,
       fold_left (λ w0 overrides, (render sample_host 5%nat overrides w0).1) calls
         world_registered = world_registered).
Proof.
  apply (render_refused_in_error_state sample_host 5%nat world_registered).
  vm_compute. reflexivity.
Defined.

Lemma getInitialProps_steps_only (n : node) (mergeProps : value) (task : pid) :
  keeps steps_only (getInitialProps n mergeProps task).
Proof.
  intros w. unfold getInitialProps. run.
  repeat split. exists []. split; [by rewrite app_nil_r|constructor].
Qed.

Lemma pipeline_throw_steps_only (H : host) (n : node) (overrides : value)
    (task : pid) (w w' : world) (e : value) :
  pipeline H n overrides task w = (w', Throw e) → steps_only w w'.
Proof.
  unfold pipeline. cbv [mbind M_bind].
  pose proof (getInitialProps_steps_only n overrides task w) as Hinit.
  destruct (getInitialProps n overrides task w) as [w1 [l|e1]]; simpl in Hinit.
  - rewrite handleMiddleware_run_pipeline. intros Hrun.
    eapply steps_only_trans; [exact Hinit|].
    by apply (run_pipeline_throws _ n (reducer_steps_only H n) _ _ _ _ _ Hrun).
  - by intros [= <- _].
Qed.

(** A step that throws, at whichever place of the element's middleware
    list, makes the pipeline of the pass throw the same. *)
Lemma pipeline_throws_at (H : host) (n : node) (overrides : value) (task : pid)
    (pre : list mwid) (m : mwid) (post : list mwid)
    (w wi : world) (initialProps : loc) (wa : world) (acc : loc) (wb : world)
    (e : value) :
  middleware_of H n = pre ++ m :: post →
  getInitialProps n overrides task w = (wi, Normal initialProps) →
  fold_steps (reducer H n) initialProps pre wi = (wa, Normal acc) →
  reducer H n (mret acc) m wa = (wb, Throw e) →
  pipeline H n overrides task w = (wb, Throw e).
Proof.
  intros Hlist Hinit Hpre Hm. unfold pipeline.
  cbv [mbind M_bind]. rewrite Hinit, Hlist, handleMiddleware_run_pipeline.
  by destruct (run_pipeline_aborts _ n (reducer_steps_only H n) (reducer_out H n)
                 initialProps pre m post wi wa acc wb e Hpre Hm) as [-> _].
Qed.

(** C7: a pass whose pipeline throws the cancellation signal, at whichever
    step, ends quietly: [render] returns, the life cycle is what it was, and
    the trace has grown by middleware calls only, so nothing was logged, no
    handler was called and nothing was notified.  What makes an error the
    signal is its class, whatever its message; and [abort()] throws it. *)
Theorem cancelled_pass_is_silent (H : host) (n : node) (overrides : value)
    (w w1 : world) (task : pid) (w2 : world) (e : value) :
  state_of w n = LNormal →
  enqueue n w = (w1, Normal task) →
  pipeline H n overrides task w1 = (w2, Throw e) →
  is_cancel e = true →
  (∃ w3 : world,
     render H n overrides w = (w3, Normal VUndefined)
     ∧ lifecycle w3 = lifecycle w
     ∧ previousProps w3 = previousProps w
     ∧ ∃ t : list effect,
         out w3 = out w ++ t ∧ Forall (λ x, is_step x = true) t)
  ∧ (∀ msg : string,
       is_cancel (VErr CancelError msg) = true
       ∧ is_cancel (VErr Error msg) = false
       ∧ is_cancel (VErr TypeError msg) = false
       ∧ is_cancel (VStr msg) = false)
  ∧ (∀ (args : list value) (w0 : world),
       ∃ e0 : value,
         apply H FAbort args w0 = (w0, Throw e0) ∧ is_cancel e0 = true).
Proof.
  intros Hnormal Henq Hpipe Hcancel.
  split; [|split; [by intros msg|intros args w0; by eexists]].
  destruct (pipeline_throw_steps_only _ _ _ _ _ _ _ Hpipe)
    as (_ & Hprev & Hlife & _ & _ & t & Ht & Hsteps).
  rewrite render_accepts by done. unfold pass.
  cbv [mbind M_bind finally try]. rewrite Henq, Hpipe.
  unfold fail. rewrite Hcancel. run.
  eexists. split; [reflexivity|]. simpl.
  revert Henq. unfold enqueue. run. intros [= <- _].
  simpl in *. split; [done|]. split; [done|]. by exists t.
Qed.

Lemma cancelled_pass_is_silent_witness :
  ∃ w3 : world,
    render sample_host 5%nat VUndefined world_attached = (w3, Normal VUndefined)
    ∧ lifecycle w3 = lifecycle world_attached
    ∧ previousProps w3 = previousProps world_attached
    ∧ ∃ t : list effect,
        out w3 = out world_attached ++ t ∧ Forall (λ x, is_step x = true) t.
Proof.
  apply (proj1 (cancelled_pass_is_silent sample_host 5%nat VUndefined
                  world_attached (enqueue 5%nat world_attached).1 0%nat
                  (pipeline sample_host 5%nat VUndefined 0%nat
                     (enqueue 5%nat world_attached).1).1
                  (VErr CancelError EmptyString)
                  ltac:(vm_compute; reflexivity) ltac:(vm_compute; reflexivity)
                  ltac:(vm_compute; reflexivity) ltac:(vm_compute; reflexivity))).
Defined.

(** ** The earlier revision *)

Lemma legacy_reducer_bind (H : host) (n : node) (accumP : M loc) (m : mwid)
    (w : world) :
  Legacy.reducer H n accumP m w
  = (accumP ≫= λ acc, Legacy.reducer H n (mret acc) m) w.
Proof.
  unfold Legacy.reducer. cbv [mbind M_bind mret M_ret].
  destruct (accumP w) as [w1 [acc|e]]; reflexivity.
Qed.



(** X1: [processMiddleware] of the earlier revision is the same fold: a run
    without steps returns the initial props, and a run of a step and others
    is the step followed by the run of the others from the value the step
    came to.  Its step passes a new object with the accumulated props and the
    accumulator under [props], and leaves the accumulator as it is; the
    value of the step is the object it returned or, when it returned a
    promise, the object the promise is fulfilled with once it has settled,
    and a promise that is rejected makes the step throw.  A run that
    completes returns the value of the last step and has persisted it as the
    previous props. *)
Lemma processMiddleware_folds (H : host) (n : node) (initialProps : loc)
    (steps : list mwid) (w : world) :
  Legacy.processMiddleware H n initialProps steps w
  = run_pipeline (Legacy.reducer H n) n initialProps steps w
  ∧ Legacy.processMiddleware H n initialProps [] w
    = (set_previousProps <[n := initialProps]> w, Normal initialProps)
  ∧ (∀ (m : mwid) (rest : list mwid),
       Legacy.processMiddleware H n initialProps (m :: rest) w
       = match Legacy.reducer H n (mret initialProps) m w with
         | (w1, Normal next) => Legacy.processMiddleware H n next rest w1
         | (w1, Throw e) => (w1, Throw e)
         end)
  ∧ (∀ (acc : loc) (m : mwid) (w0 : world),
       let o := <[KStr "props" := VObj acc]> (fields (heap w0) acc) in
       let w1 :=
         set_out (λ t, t ++ [Stepped m (length (heap w0))])
           (set_heap (λ h, h ++ [o]) w0) in
       Legacy.reducer H n (mret acc) m w0
       = match middleware_run H m (heap w1) (length (heap w0)) with
         | (h, Normal (Props l)) =>
             (if bool_decide (is_Some (fields h l !! KHandler))
              then set_errorHandlers <[n := l]> (set_heap (λ _, h) w1)
              else set_heap (λ _, h) w1,
              Normal l)
         | (h, Normal (Promise k)) =>
             match k h with
             | (h', Resolves l) => (set_heap (λ _, h') w1, Normal l)
             | (h', Rejects e) => (set_heap (λ _, h') w1, Throw e)
             end
         | (h, Throw e) => (set_heap (λ _, h) w1, Throw e)
         end)
  ∧ (∀ (w' : world) (final : loc),
       Legacy.processMiddleware H n initialProps steps w = (w', Normal final) →
       previousProps w' !! n = Some final
       ∧ ∃ w'' : world,
           fold_steps (Legacy.reducer H n) initialProps steps w
           = (w'', Normal final)
           ∧ w' = set_previousProps <[n := final]> w'').
Proof.
  assert (∀ init steps0 w0, Legacy.processMiddleware H n init steps0 w0
                = run_pipeline (Legacy.reducer H n) n init steps0 w0) as Hrun.
  { intros init steps0 w0. apply reduce_run_pipeline, legacy_reducer_bind. }
  split; [apply Hrun|]. split; [reflexivity|]. split; [|split].
  - intros m rest. rewrite Hrun. unfold run_pipeline. simpl. cbv [mbind M_bind].
    destruct (Legacy.reducer H n (mret initialProps) m w) as [w1 [next|e]];
      [|reflexivity].
    rewrite Hrun. reflexivity.
  - intros acc m w0 o w1. subst o w1.
    unfold Legacy.reducer, call_middleware. run.
    destruct (middleware_run H m _ _) as [h [[l|k]|e]]; [| |reflexivity].
    + unfold register, await. run. by case_bool_decide.
    + unfold register, await. run. by destruct (k h) as [h' [l|e]].
  - intros w' final. rewrite Hrun. apply run_pipeline_persists.
Qed.

Lemma processMiddleware_folds_witness :
  previousProps
    (Legacy.processMiddleware deferring_host 5%nat 0%nat [1%nat; 1%nat]
       world_initial).1
    !! 5%nat = Some 7%nat
  ∧ ∃ w'' : world,
      fold_steps (Legacy.reducer deferring_host 5%nat) 0%nat [1%nat; 1%nat]
        world_initial
      = (w'', Normal 7%nat)
      ∧ (Legacy.processMiddleware deferring_host 5%nat 0%nat [1%nat; 1%nat]
           world_initial).1
        = set_previousProps <[5%nat := 7%nat]> w''.
Proof.
  apply (proj2 (proj2 (proj2 (proj2
           (processMiddleware_folds deferring_host 5%nat 0%nat
              [1%nat; 1%nat] world_initial))))).
  vm_compute. reflexivity.
Defined.


(** The earlier revision looks for the marker in the same place. *)
Lemma legacy_async_marker_is_not_registered :
  (Legacy.processMiddleware sample_host 5%nat 0%nat [2%nat] world_initial).2
  = Normal 2%nat
  ∧ fields (heap (Legacy.processMiddleware sample_host 5%nat 0%nat [2%nat]
                    world_initial).1)
           2%nat !! KHandler = Some (VFun (FExt 8))
  ∧ errorHandlers (Legacy.processMiddleware sample_host 5%nat 0%nat [2%nat]
                     world_initial).1
    !! 5%nat = None.
Proof. repeat split; vm_compute; reflexivity. Qed.

(** X2: [handleError] of the earlier revision logs once when the element has
    no registration, and otherwise persists the registered snapshot with the
    error and then calls the handler once with the snapshot, the error and
    its own recovery callback. *)
Lemma legacy_handleError (H : host) (n : node) (e : value) (w : world) :
  (errorHandlers w !! n = None →
   Legacy.handleError H n e w
   = (set_out (λ o, o ++ [Console "error" e]) w, Normal VUndefined))
  ∧ (∀ (registered : loc) (f : fn),
       errorHandlers w !! n = Some registered →
       fields (heap w) registered !! KHandler = Some (VFun f) →
       let snapshot := fields (heap w) registered in
       let w1 :=
         set_out (λ o, o ++ [Called f [VObj (S (length (heap w)))]])
           (set_heap
              (λ h, h ++ [<[KStr "error" := e]> snapshot;
                          <[KStr "render" := VFun (FRecoverOld n)]>
                            (<[KStr "error" := e]> snapshot)])
              (set_previousProps <[n := length (heap w)]> w)) in
       Legacy.handleError H n e w
       = (apply H f [VObj (S (length (heap w)))] ≫= λ _, mret VUndefined) w1).
Proof.
  split.
  - intros Hnone. unfold Legacy.handleError. run. by rewrite Hnone.
  - intros registered f Hreg Hf snapshot w1. subst snapshot w1.
    pose proof (fields_is_Some _ _ _ _ Hf) as Hlt.
    unfold Legacy.handleError, call. run. rewrite Hreg. simpl.
    rewrite fields_alloc_old by done. rewrite Hf. simpl.
    rewrite length_app. simpl.
    replace (length (heap w) + 1)%nat with (S (length (heap w))) by lia.
    match goal with
    | |- (let (_, _) := apply _ _ _ ?a in _) = (let (_, _) := apply _ _ _ ?b in _) =>
        replace a with b; [reflexivity|]
    end.
    unfold set_out, set_heap, set_previousProps. simpl. by rewrite <-app_assoc.
Qed.

Lemma legacy_handleError_witness :
  Legacy.handleError idle_host 5%nat (VErr Error "boom") world_registered
  = (apply idle_host (FExt 7) [VObj 2%nat] ≫= λ _, mret VUndefined)
      (set_out (λ o, o ++ [Called (FExt 7) [VObj 2%nat]])
         (set_heap
            (λ h, h ++ [<[KStr "error" := VErr Error "boom"]>
                          (fields (heap world_registered) 0%nat);
                        <[KStr "render" := VFun (FRecoverOld 5%nat)]>
                          (<[KStr "error" := VErr Error "boom"]>
                             (fields (heap world_registered) 0%nat))])
            (set_previousProps <[5%nat := 1%nat]> world_registered))).
Proof.
  apply (proj2 (legacy_handleError idle_host 5%nat (VErr Error "boom")
                  world_registered) 0%nat (FExt 7)); vm_compute; reflexivity.
Defined.

(** Its callback resets the life cycle and calls [render] with the props it
    was given, and returns nothing. *)
Lemma legacy_recover (H : host) (n : node) (overrides : value) (w : world) :
  apply H (FRecoverOld n) [overrides] w
  = (node_render H n overrides ≫= λ _, mret VUndefined)
      (set_lifecycle <[n := LNormal]> w).
Proof. reflexivity. Qed.

(** ** The scenarios of the specification, run *)

(** A step throws a plain error and no handler is registered (the step that
    declared one was asynchronous): the element ends in the error state, with
    one log, one notification and an empty registry. *)
Example unrecovered_failure :
  let w := (render (host_with [2; 4]%nat) 5%nat VUndefined world_attached).1 in
  state_of w 5%nat = LError
  ∧ out w = [Stepped 2%nat 1%nat; Stepped 4%nat 3%nat;
             Console "error" (VErr Error "boom"); Notified 5%nat "resolved"]
  ∧ tasks_of w 5%nat = ∅
  ∧ previousProps w !! 5%nat = None.
Proof. repeat split; vm_compute; reflexivity. Qed.

(** A step throws a plain error after a synchronous step registered a
    handler: the handler is called once, with the error in its props, nothing
    is logged, and the previous props are the registered snapshot with the
    error. *)
Example recovered_failure :
  let w := (render (host_with [0; 4]%nat) 5%nat VUndefined world_attached).1 in
  state_of w 5%nat = LError
  ∧ out w = [Stepped 0%nat 1%nat; Stepped 4%nat 3%nat;
             Called (FExt 7) [VObj 5%nat]; Notified 5%nat "resolved"]
  ∧ fields (heap w) 5%nat !! KStr "error" = Some (VErr Error "boom")
  ∧ fields (heap w) 5%nat !! KStr "render" = Some (VFun (FRecover 5%nat))
  ∧ previousProps w !! 5%nat = Some 4%nat
  ∧ fields (heap w) 4%nat !! KStr "error" = Some (VErr Error "boom").
Proof. repeat split; vm_compute; reflexivity. Qed.

(** A pass whose steps all complete on an attached element renders, sets
    the flag and notifies once, and persists the last snapshot. *)
Example successful_pass :
  let w := (render (host_with [0; 1]%nat) 5%nat VUndefined world_attached).1 in
  state_of w 5%nat = LNormal
  ∧ out w = [Stepped 0%nat 1%nat; Stepped 1%nat 3%nat; ViewRendered 5%nat 4%nat;
             FlagAdded 5%nat "resolved"; Notified 5%nat "resolved"]
  ∧ tasks_of w 5%nat = ∅
  ∧ previousProps w !! 5%nat = Some 4%nat
  ∧ errorHandlers w !! 5%nat = Some 2%nat.
Proof. repeat split; vm_compute; reflexivity. Qed.

(** A step calls [abort()]: nothing but the middleware calls shows. *)
Example cancelled_pass :
  let w := (render (host_with [0; 3; 1]%nat) 5%nat VUndefined world_attached).1 in
  state_of w 5%nat = LNormal
  ∧ out w = [Stepped 0%nat 1%nat; Stepped 3%nat 3%nat]
  ∧ tasks_of w 5%nat = ∅
  ∧ previousProps w !! 5%nat = None.
Proof. repeat split; vm_compute; reflexivity. Qed.

(** ** Strings *)

Lemma append_cons (c : ascii) (s t : string) :
  String c s +:+ t = String c (s +:+ t).
Proof. reflexivity. Qed.

Lemma append_nil_l (s : string) : EmptyString +:+ s = s.
Proof. reflexivity. Qed.

Ltac app_simpl := rewrite ?append_cons, ?append_nil_l; simpl.

Lemma append_nil_r (s : string) : s +:+ EmptyString = s.
Proof. induction s as [|c s IH]; app_simpl; [done|by f_equal]. Qed.

Lemma append_assoc (a b c : string) : (a +:+ b) +:+ c = a +:+ b +:+ c.
Proof. induction a as [|x a IH]; app_simpl; [done|by f_equal]. Qed.

Lemma length_append (a b : string) :
  String.length (a +:+ b) = (String.length a + String.length b)%nat.
Proof. induction a as [|x a IH]; app_simpl; [done|by f_equal]. Qed.

Lemma prefix_append (a b : string) : String.prefix a (a +:+ b) = true.
Proof.
  induction a as [|x a IH]; app_simpl; [by destruct b|].
  by destruct (ascii_dec x x).
Qed.

Lemma prefix_refl (a : string) : String.prefix a a = true.
Proof. rewrite <-(append_nil_r a) at 2. apply prefix_append. Qed.

Lemma prefix_split (a b : string) :
  String.prefix a b = true → ∃ c : string, b = a +:+ c.
Proof.
  revert b. induction a as [|x a IH]; intros b Hp.
  - by exists b.
  - destruct b as [|y b]; simpl in Hp; [done|].
    destruct (ascii_dec x y) as [->|]; [|done].
    destruct (IH _ Hp) as [c ->]. by exists c.
Qed.

Lemma prefix_trans (a b c : string) :
  String.prefix a b = true → String.prefix b c = true → String.prefix a c = true.
Proof.
  intros [x ->]%prefix_split [y ->]%prefix_split.
  rewrite append_assoc. apply prefix_append.
Qed.

(** ** Event names *)

(** X4: [getEventName] puts every label under the [@switzerland/] scope and
    keeps labels apart: two labels with the same event name are the same
    label. *)
Theorem getEventName_scoped (a b : string) :
  String.prefix "@switzerland/" (getEventName a) = true
  ∧ String.length (getEventName a) = (13 + String.length a)%nat
  ∧ (getEventName a = getEventName b → a = b).
Proof.
  split; [apply prefix_append|]. split; [apply length_append|].
  unfold getEventName. intros Heq. by apply (inj (String.app _)) in Heq.
Qed.

Lemma getEventName_scoped_witness : "resolved" = "resolved".
Proof.
  apply (proj2 (proj2 (getEventName_scoped "resolved" "resolved"))).
  reflexivity.
Defined.

(** ** Random identifiers *)

Lemma hex_value_from_append (a b : string) :
  ∀ acc : N,
    hex_value_from acc (a +:+ b)
    = match hex_value_from acc a with
      | Some x => hex_value_from x b
      | None => None
      end.
Proof.
  induction a as [|c a IH]; intros acc; app_simpl; [done|].
  destruct (digit_value c); [apply IH|done].
Qed.

Lemma digit_value_hex_digit (d : nat) :
  (d < 16)%nat → digit_value (hex_digit d) = Some (N.of_nat d).
Proof.
  intros Hd. do 16 (destruct d as [|d]; [reflexivity|]). lia.
Qed.

Lemma hex_go_value (fuel : nat) :
  ∀ n : N, (n < 16 ^ N.of_nat fuel)%N → hex_value_from 0 (hex_go fuel n) = Some n.
Proof.
  induction fuel as [|fuel IH]; intros n Hn.
  - simpl in *. f_equal. lia.
  - simpl. destruct (N.ltb_spec n 16) as [Hsmall|Hbig].
    + simpl. rewrite digit_value_hex_digit by lia. simpl. f_equal. lia.
    + rewrite hex_value_from_append, IH.
      * simpl. rewrite digit_value_hex_digit.
        -- f_equal. rewrite N2Nat.id. symmetry. rewrite N.add_comm, N.mul_comm.
           rewrite (N.div_mod n 16) at 1 by lia. lia.
        -- pose proof (N.mod_upper_bound n 16). lia.
      * apply N.Div0.div_lt_upper_bound.
        rewrite Nat2N.inj_succ, N.pow_succ_r' in Hn. lia.
Qed.

Lemma hex_go_length (fuel : nat) :
  ∀ (n : N) (k : nat),
    (1 ≤ k)%nat → (n < 16 ^ N.of_nat k)%N → (String.length (hex_go fuel n) ≤ k)%nat.
Proof.
  induction fuel as [|fuel IH]; intros n k Hk Hn; simpl; [lia|].
  destruct (N.ltb_spec n 16) as [Hsmall|Hbig]; simpl; [lia|].
  rewrite length_append. simpl.
  destruct k as [|[|k]]; [lia| |].
  - simpl in Hn. lia.
  - assert (String.length (hex_go fuel (n / 16)) ≤ S k)%nat; [|lia].
    apply IH; [lia|]. apply N.Div0.div_lt_upper_bound.
    rewrite (Nat2N.inj_succ (S k)), N.pow_succ_r' in Hn. lia.
Qed.

Lemma toString16_fuel (n : N) : (n < 16 ^ N.of_nat (S (N.to_nat (N.log2 n))))%N.
Proof.
  rewrite Nat2N.inj_succ, N2Nat.id.
  destruct (decide (n = 0%N)) as [->|Hn]; [done|].
  eapply N.lt_le_trans; [apply N.log2_spec; lia|].
  apply N.pow_le_mono_l. lia.
Qed.

Lemma toString16_nonempty (n : N) :
  ∃ (c : ascii) (s : string), toString16 n = String c s.
Proof.
  unfold toString16. simpl. destruct (n <? 16)%N; [by eexists _, _|].
  destruct (hex_go _ _); app_simpl; by eexists _, _.
Qed.

(** X5: the identifier that [getRandomId] makes of a random word is one to
    eight lower-case hexadecimal digits, and reads back as the word (taken
    modulo [2^32]): formatting never makes two different words collide. *)
Theorem getRandomId_reads_back (random : N) :
  (1 ≤ String.length (getRandomId random) ≤ 8)%nat
  ∧ hex_value (getRandomId random) = Some (random mod 2 ^ 32)%N.
Proof.
  unfold getRandomId. set (n := (random mod 2 ^ 32)%N).
  assert (n < 2 ^ 32)%N as Hn by (apply N.mod_upper_bound; lia).
  destruct (toString16_nonempty n) as (c & s & Hs).
  split; [split|].
  - rewrite Hs. simpl. lia.
  - apply hex_go_length; [lia|]. exact Hn.
  - unfold hex_value. rewrite Hs, <-Hs.
    apply hex_go_value, toString16_fuel.
Qed.

(** ** Tag names *)

Lemma getRandomId_nonempty (random : N) :
  ∃ (c : ascii) (s : string), getRandomId random = String c s.
Proof. apply toString16_nonempty. Qed.

Lemma prefix_tag (name : string) (suffix : option string) :
  String.prefix name
    (match suffix with
     | Some (String c s) => name +:+ "-" +:+ String c s
     | Some EmptyString | None => name
     end) = true.
Proof.
  destruct suffix as [[|c s]|];
    [apply prefix_refl|apply prefix_append|apply prefix_refl].
Qed.

Lemma findFreeTagName_sound (registry : gset string) (randoms : list N) :
  ∀ (name : string) (suffix : option string) (tag : string),
    findFreeTagName registry randoms name suffix = Some tag →
    tag ∉ registry ∧ String.prefix name tag = true.
Proof.
  induction randoms as [|r randoms IH]; intros name suffix tag; simpl.
  - case_decide as Hin; [done|]. intros [= <-]. split; [done|apply prefix_tag].
  - case_decide as Hin.
    + intros Hrec. destruct (IH _ _ _ Hrec) as [Hfree Hpre]. split; [done|].
      eapply prefix_trans; [apply prefix_tag|exact Hpre].
    + intros [= <-]. split; [done|apply prefix_tag].
Qed.

(** Every further try is strictly longer, so the registered names that are
    long enough to be tried get fewer. *)
Lemma findFreeTagName_progress (registry : gset string) (randoms : list N) :
  ∀ (name : string) (suffix : option string),
    let tag :=
      match suffix with
      | Some (String c s) => name +:+ "-" +:+ String c s
      | Some EmptyString | None => name
      end in
    (size (filter (at_least (String.length tag)) registry) ≤ length randoms)%nat →
    is_Some (findFreeTagName registry randoms name suffix).
Proof.
  induction randoms as [|r randoms IH]; intros name suffix tag Hsize; simpl; fold tag.
  - case_decide as Hin; [|by eexists]. exfalso.
    assert (tag ∈ filter (at_least (String.length tag)) registry) as Hf.
    { apply elem_of_filter. split; [unfold at_least; lia|done]. }
    simpl in Hsize. apply Nat.le_0_r, size_empty_iff in Hsize.
    rewrite Hsize in Hf. set_solver.
  - case_decide as Hin; [|by eexists].
    apply IH. destruct (getRandomId_nonempty r) as (c & s & ->).
    assert (filter (at_least (String.length (tag +:+ "-" +:+ String c s))) registry
            ⊂ filter (at_least (String.length tag)) registry) as Hsub.
    { apply strict_spec_alt. split.
      - intros x [Hx Hxin]%elem_of_filter. apply elem_of_filter. split; [|done].
        unfold at_least in *. rewrite length_append in Hx. lia.
      - intros Heq.
        assert (tag ∈ filter (at_least (String.length tag)) registry) as Hf.
        { apply elem_of_filter. split; [unfold at_least; lia|done]. }
        rewrite <-Heq in Hf. apply elem_of_filter in Hf as [Hf _].
        unfold at_least in Hf. rewrite length_append in Hf. simpl in Hf. lia. }
    apply subset_size in Hsub. simpl in Hsize. lia.
Qed.

(** X6: a name that [findFreeTagName] returns is not registered and begins
    with the requested name; a requested name that is not registered is
    returned as it is, without a random suffix. *)
Theorem findFreeTagName_finds_free (registry : gset string) (randoms : list N)
    (name : string) :
  (name ∉ registry → findFreeTagName registry randoms name None = Some name)
  ∧ (∀ (suffix : option string) (tag : string),
       findFreeTagName registry randoms name suffix = Some tag →
       tag ∉ registry ∧ String.prefix name tag = true).
Proof.
  split; [|apply findFreeTagName_sound].
  intros Hfree. destruct randoms; simpl; by case_decide.
Qed.

Lemma findFreeTagName_finds_free_witness :
  findFreeTagName {["x-a"; "x-a-ff"]} [255%N; 16%N] "x-a-free" None
  = Some "x-a-free"
  ∧ "x-a-ff-10" ∉ ({["x-a"; "x-a-ff"]} : gset string)
  ∧ String.prefix "x-a" "x-a-ff-10" = true.
Proof.
  split.
  - apply (proj1 (findFreeTagName_finds_free {["x-a"; "x-a-ff"]} [255%N; 16%N]
                    "x-a-free")).
    set_solver.
  - apply (proj2 (findFreeTagName_finds_free {["x-a"; "x-a-ff"]} [255%N; 16%N]
                    "x-a") None "x-a-ff-10").
    vm_compute. reflexivity.
Defined.

(** X7: [findFreeTagName] finds a free name after at most as many random
    draws as there are registered names, whatever is drawn: each name it
    tries is longer than the one before. *)
Theorem findFreeTagName_terminates (registry : gset string) (randoms : list N)
    (name : string) (suffix : option string) :
  (size registry ≤ length randoms)%nat →
  is_Some (findFreeTagName registry randoms name suffix).
Proof.
  intros Hsize. apply findFreeTagName_progress.
  etrans; [|exact Hsize]. apply subseteq_size.
  intros x [_ Hx]%elem_of_filter. exact Hx.
Qed.

Lemma findFreeTagName_terminates_witness :
  is_Some (findFreeTagName {["x-a"; "x-a-0"]} [0%N; 0%N] "x-a" None).
Proof.
  apply (findFreeTagName_terminates {["x-a"; "x-a-0"]} [0%N; 0%N] "x-a" None).
  vm_compute. lia.
Defined.

Lemma split_without (sep : ascii) (s : string) :
  sep ∉ String.list_ascii_of_string s → split sep s = [s].
Proof.
  induction s as [|c s IH]; simpl; [done|]. intros Hnot.
  case_decide as Hc; [set_solver|]. rewrite IH; [done|set_solver].
Qed.

Lemma split_at (sep : ascii) (a b : string) :
  sep ∉ String.list_ascii_of_string a →
  split sep (a +:+ String sep b) = a :: split sep b.
Proof.
  induction a as [|c a IH]; app_simpl; intros Hnot.
  - by case_decide.
  - case_decide as Hc; [set_solver|]. rewrite IH; [done|set_solver].
Qed.

(** X8: [parseTagName] reads the name up to the first slash as the tag to
    free and the part between the first and the second slash as the tag to
    extend: the prototype is the constructor of the element of that tag;
    without a slash, or with nothing after it, it is [HTMLElement]; and what
    follows a second slash plays no part. *)
Theorem parseTagName_parts (registry : gset string) (randoms : list N)
    (tag extended rest : string) :
  "/"%char ∉ String.list_ascii_of_string tag →
  "/"%char ∉ String.list_ascii_of_string extended →
  let extends :=
    match extended with
    | EmptyString => HTMLElement
    | String _ _ => ConstructorOf extended
    end in
  parseTagName registry randoms tag
  = (findFreeTagName registry randoms tag None, HTMLElement)
  ∧ parseTagName registry randoms (tag +:+ "/" +:+ extended)
    = (findFreeTagName registry randoms tag None, extends)
  ∧ parseTagName registry randoms (tag +:+ "/" +:+ extended +:+ "/" +:+ rest)
    = (findFreeTagName registry randoms tag None, extends).
Proof.
  intros Htag Hext extends. unfold parseTagName.
  split; [by rewrite split_without|]. split.
  - change (tag +:+ "/" +:+ extended) with (tag +:+ String "/"%char extended).
    rewrite split_at, split_without by done. subst extends. by destruct extended.
  - change (tag +:+ "/" +:+ extended +:+ "/" +:+ rest)
      with (tag +:+ String "/"%char (extended +:+ String "/"%char rest)).
    rewrite split_at, split_at by done. subst extends. by destruct extended.
Qed.

Lemma parseTagName_parts_witness :
  (parseTagName ∅ [] "x-foo" = (findFreeTagName ∅ [] "x-foo" None, HTMLElement)
   ∧ parseTagName ∅ [] ("x-foo" +:+ "/" +:+ "button")
     = (findFreeTagName ∅ [] "x-foo" None, ConstructorOf "button")
   ∧ parseTagName ∅ [] ("x-foo" +:+ "/" +:+ "button" +:+ "/" +:+ "more")
     = (findFreeTagName ∅ [] "x-foo" None, ConstructorOf "button"))
  ∧ (parseTagName ∅ [] "x-foo" = (findFreeTagName ∅ [] "x-foo" None, HTMLElement)
     ∧ parseTagName ∅ [] ("x-foo" +:+ "/" +:+ EmptyString)
       = (findFreeTagName ∅ [] "x-foo" None, HTMLElement)
     ∧ parseTagName ∅ [] ("x-foo" +:+ "/" +:+ EmptyString +:+ "/" +:+ "more")
       = (findFreeTagName ∅ [] "x-foo" None, HTMLElement)).
Proof.
  split.
  - apply (parseTagName_parts ∅ [] "x-foo" "button" "more"); vm_compute; set_solver.
  - apply (parseTagName_parts ∅ [] "x-foo" EmptyString "more"); vm_compute;
      set_solver.
Defined.

(** ** Shadow roots *)

Section shadow.

Variable attachShadow : list (node * props * option root) → node → props → option root.

Lemma attached_app (log : list (node * props * option root)) (n : node)
    (given : props) (answer : option root) :
  attached (log ++ [(n, given, answer)])
  = attached log ++ match answer with Some _ => [n] | None => [] end.
Proof. unfold attached. rewrite omap_app. by destruct answer. Qed.

Lemma createShadowRoot_attached_once (n : node) (options : props) (s : shadows) :
  attached_once s → attached_once (createShadowRoot attachShadow n options s).1.
Proof.
  intros [Hnodup Hdom]. unfold createShadowRoot.
  destruct (shadowBoundaries s !! n) as [cached|] eqn:Hcached; [done|].
  destruct (attachShadow _ _ _) as [made|];
    unfold attached_once; cbn [fst attachments shadowBoundaries].
  - assert (n ∉ attached (attachments s)) as Hnew.
    { rewrite Hdom, Hcached. by intros [? ?]. }
    split.
    + rewrite attached_app. apply NoDup_app. split; [done|].
      split; [|apply NoDup_singleton]. intros x Hx ->%list_elem_of_singleton.
      done.
    + intros x. rewrite attached_app, elem_of_app, list_elem_of_singleton, Hdom.
      destruct (decide (x = n)) as [->|Hne].
      * rewrite lookup_insert_eq. split; [by eexists|by right].
      * rewrite lookup_insert_ne by done. split; [by intros [?|?]|by left].
  - split.
    + by rewrite attached_app, app_nil_r.
    + intros x. by rewrite attached_app, app_nil_r.
Qed.

(** X9: once [createShadowRoot] has returned a root for an element, every
    later call for that element returns the same root, whatever the options,
    without asking the DOM again; a call that could not attach returns the
    element itself and records nothing, so the next call tries again. *)
Theorem createShadowRoot_caches (n : node) (options : props) (s s1 : shadows) :
  (∀ (made : root) (later : props),
     createShadowRoot attachShadow n options s = (s1, inl made) →
     createShadowRoot attachShadow n later s1 = (s1, inl made))
  ∧ (∀ e : node,
       createShadowRoot attachShadow n options s = (s1, inr e) →
       e = n
       ∧ shadowBoundaries s1 = shadowBoundaries s
       ∧ shadowBoundaries s1 !! n = None
       ∧ attachments s1
         = attachments s ++ [(n, spread defaultOptions options, None)]).
Proof.
  unfold createShadowRoot. split.
  - intros made later.
    destruct (shadowBoundaries s !! n) as [cached|] eqn:Hcached.
    + intros [= <- <-]. by rewrite Hcached.
    + destruct (attachShadow (attachments s) n _) as [made'|]; [|done].
      intros [= <- <-]. simpl. by rewrite lookup_insert_eq.
  - intros e.
    destruct (shadowBoundaries s !! n) as [cached|] eqn:Hcached; [done|].
    destruct (attachShadow (attachments s) n _) as [made'|]; [done|].
    by intros [= <- <-].
Qed.

(** X10: over any sequence of calls of [createShadowRoot] that starts with an
    empty table, [attachShadow] succeeds at most once on each element, and
    the elements that have a root in the table are exactly those. *)
Theorem createShadowRoots_attach_once (calls : list (node * props)) :
  attached_once (createShadowRoots attachShadow calls no_shadows).
Proof.
  unfold createShadowRoots.
  assert (attached_once no_shadows) as Hstart.
  { split; [constructor|]. intros n. simpl. rewrite lookup_empty.
    split; [by intros ?%elem_of_nil|by intros [? ?]]. }
  revert Hstart. generalize no_shadows.
  induction calls as [|[n options] calls IH]; intros s Hs; simpl; [done|].
  apply IH. by apply createShadowRoot_attached_once.
Qed.

(** X11: the options that [createShadowRoot] attaches with are the caller's
    on top of the defaults: [mode] is ['open'] and [delegatesFocus] is
    [false] unless the caller says otherwise, and every other option of the
    caller is passed on. *)
Theorem createShadowRoot_options (n : node) (options : props) (s : shadows) :
  shadowBoundaries s !! n = None →
  ∃ given : props,
    attachments (createShadowRoot attachShadow n options s).1
    = attachments s ++ [(n, given, attachShadow (attachments s) n given)]
    ∧ given !! KStr "mode" = Some (default (VStr "open") (options !! KStr "mode"))
    ∧ given !! KStr "delegatesFocus"
      = Some (default (VBool false) (options !! KStr "delegatesFocus"))
    ∧ ∀ (k : key) (v : value), options !! k = Some v → given !! k = Some v.
Proof.
  intros Hnone. unfold createShadowRoot. rewrite Hnone.
  exists (spread defaultOptions options).
  split; [cbv zeta; by destruct (attachShadow _ _ _)|].
  unfold spread, defaultOptions. rewrite !lookup_union.
  split; [|split].
  - by destruct (options !! KStr "mode").
  - by destruct (options !! KStr "delegatesFocus").
  - intros k v Hk. rewrite lookup_union, Hk.
    by match goal with |- context [?m !! k] => destruct (m !! k) end.
Qed.

End shadow.

Lemma createShadowRoot_caches_witness :
  createShadowRoot (λ _ _ _, Some 9%nat) 5%nat {[ KStr "mode" := VStr "closed" ]}
    (createShadowRoot (λ _ _ _, Some 9%nat) 5%nat ∅ no_shadows).1
  = ((createShadowRoot (λ _ _ _, Some 9%nat) 5%nat ∅ no_shadows).1, inl 9%nat)
  ∧ (5%nat = 5%nat
     ∧ shadowBoundaries (createShadowRoot (λ _ _ _, None) 5%nat ∅ no_shadows).1
       = shadowBoundaries no_shadows
     ∧ shadowBoundaries (createShadowRoot (λ _ _ _, None) 5%nat ∅ no_shadows).1
       !! 5%nat = None
     ∧ attachments (createShadowRoot (λ _ _ _, None) 5%nat ∅ no_shadows).1
       = attachments no_shadows ++ [(5%nat, spread defaultOptions ∅, None)]).
Proof.
  split.
  - apply (proj1 (createShadowRoot_caches (λ _ _ _, Some 9%nat) 5%nat ∅ no_shadows
                    (createShadowRoot (λ _ _ _, Some 9%nat) 5%nat ∅ no_shadows).1)).
    reflexivity.
  - apply (proj2 (createShadowRoot_caches (λ _ _ _, None) 5%nat ∅ no_shadows
                    (createShadowRoot (λ _ _ _, None) 5%nat ∅ no_shadows).1)).
    reflexivity.
Defined.

Lemma createShadowRoot_options_witness :
  ∃ given : props,
    attachments
      (createShadowRoot (λ _ _ _, None) 5%nat {[ KStr "mode" := VStr "closed" ]}
         no_shadows).1
    = attachments no_shadows ++ [(5%nat, given, None)]
    ∧ given !! KStr "mode"
      = Some (default (VStr "open")
                (({[ KStr "mode" := VStr "closed" ]} : props) !! KStr "mode"))
    ∧ given !! KStr "delegatesFocus"
      = Some (default (VBool false)
                (({[ KStr "mode" := VStr "closed" ]} : props)
                   !! KStr "delegatesFocus"))
    ∧ ∀ (k : key) (v : value),
        ({[ KStr "mode" := VStr "closed" ]} : props) !! k = Some v →
        given !! k = Some v.
Proof.
  apply (createShadowRoot_options (λ _ _ _, None) 5%nat
           {[ KStr "mode" := VStr "closed" ]} no_shadows).
  reflexivity.
Defined.

(** ** Stylesheet paths of the earlier revision *)

Lemma prefix_cons (a c : ascii) (s rest : string) :
  String.prefix (String a s) (String c rest)
  = if decide (a = c) then String.prefix s rest else false.
Proof.
  change (String.prefix (String a s) (String c rest))
    with (match ascii_dec a c with
          | left _ => String.prefix s rest
          | right _ => false
          end).
  destruct (ascii_dec a c); by case_decide.
Qed.

Lemma prefix_append_r (a b c : string) :
  String.prefix a b = true → String.prefix a (b +:+ c) = true.
Proof.
  intros [x ->]%prefix_split. rewrite append_assoc. apply prefix_append.
Qed.

(** X12: [isRemotePath] takes for remote only what begins with [http://],
    [https://] or [://], in lower case: a path whose first character is
    neither [h] nor [:] (a relative path, an absolute one, a
    protocol-relative [//host/..]) is not remote, and whatever is appended to
    a remote path leaves it remote. *)
Theorem isRemotePath_by_scheme (c : ascii) (rest p q : string) :
  (c ≠ "h"%char → c ≠ ":"%char → LegacyUtils.isRemotePath (String c rest) = false)
  ∧ LegacyUtils.isRemotePath EmptyString = false
  ∧ (LegacyUtils.isRemotePath p = true → LegacyUtils.isRemotePath (p +:+ q) = true).
Proof.
  unfold LegacyUtils.isRemotePath. split; [|split; [done|]].
  - intros Hh Hc. rewrite !prefix_cons. repeat case_decide; by subst.
  - rewrite !orb_true_iff. intros [[Hp|Hp]|Hp]; eauto using prefix_append_r.
Qed.

Lemma isRemotePath_by_scheme_witness :
  LegacyUtils.isRemotePath (String "/"%char "/cdn/a.css") = false
  ∧ LegacyUtils.isRemotePath ("https://cdn" +:+ "/a.css") = true.
Proof.
  split.
  - apply (proj1 (isRemotePath_by_scheme "/"%char "/cdn/a.css" "https://cdn" "/a.css"));
      discriminate.
  - apply (proj2 (proj2 (isRemotePath_by_scheme "/"%char "/cdn/a.css" "https://cdn"
                           "/a.css"))).
    reflexivity.
Defined.

(** X13: the string that [escapeRegExp] returns, read as a regular expression,
    is made of plain characters and escaped special characters only and
    matches the original string literally; escaping keeps the length between
    one and two times the original, distributes over concatenation, and
    changes nothing in a string without special characters. *)
Theorem escapeRegExp_literal (a b : string) :
  LegacyUtils.literal_of (LegacyUtils.escapeRegExp a) = Some a
  ∧ (String.length a ≤ String.length (LegacyUtils.escapeRegExp a)
     ≤ 2 * String.length a)%nat
  ∧ LegacyUtils.escapeRegExp (a +:+ b)
    = LegacyUtils.escapeRegExp a +:+ LegacyUtils.escapeRegExp b
  ∧ (Forall (λ c, LegacyUtils.special c = false) (String.list_ascii_of_string a) →
     LegacyUtils.escapeRegExp a = a).
Proof.
  split; [|split; [|split]].
  - induction a as [|c a IH]; simpl; [done|].
    destruct (LegacyUtils.special c) eqn:Hc; simpl.
    + by rewrite Hc, IH.
    + case_decide as Hb; [by subst|]. by rewrite Hc, IH.
  - induction a as [|c a IH]; simpl; [lia|].
    destruct (LegacyUtils.special c); simpl; lia.
  - induction a as [|c a IH]; app_simpl; [done|].
    destruct (LegacyUtils.special c); app_simpl; by rewrite IH.
  - induction a as [|c a IH]; simpl; [done|]. intros [Hc Ha]%Forall_cons.
    by rewrite Hc, IH.
Qed.

Lemma escapeRegExp_literal_witness : LegacyUtils.escapeRegExp "images" = "images".
Proof.
  apply (proj2 (proj2 (proj2 (escapeRegExp_literal "images" EmptyString)))).
  vm_compute. repeat constructor.
Defined.

Lemma push_url_spec (isEmbedded : string → bool) (urls : list string)
    (m : LegacyUtils.url_match) :
  NoDup urls →
  NoDup (LegacyUtils.push_url isEmbedded urls m)
  ∧ ∀ u : string,
      u ∈ LegacyUtils.push_url isEmbedded urls m
      ↔ u ∈ urls
        ∨ (LegacyUtils.matched_url m = Some u ∧ u ≠ EmptyString
           ∧ isEmbedded u = false).
Proof.
  intros Hnodup. unfold LegacyUtils.push_url.
  destruct (LegacyUtils.matched_url m) as [[|c s]|] eqn:Hm.
  - split; [done|]. intros u. split; [by left|]. by intros [?|([= <-] & ? & _)].
  - destruct (isEmbedded (String c s)) eqn:Hemb; simpl.
    + split; [done|]. intros u. split; [by left|].
      intros [?|([= <-] & _ & ?)]; [done|congruence].
    + case_bool_decide as Hnew.
      * split.
        -- apply NoDup_app. split; [done|]. split; [|apply NoDup_singleton].
           by intros x Hx ->%list_elem_of_singleton.
        -- intros u. rewrite elem_of_app, list_elem_of_singleton. split.
           ++ intros [?| ->]; [by left|by right].
           ++ intros [?|([= <-] & _)]; [by left|by right].
      * split; [done|]. intros u. split; [by left|].
        intros [?|([= <-] & _)]; [done|].
        destruct (decide (String c s ∈ urls)); [done|contradiction].
  - split; [done|]. intros u. split; [by left|]. by intros [?|(? & _)].
Qed.

Lemma getUrls_from (isEmbedded : string → bool) (matches : list LegacyUtils.url_match) :
  ∀ urls : list string,
    NoDup urls →
    NoDup (fold_left (LegacyUtils.push_url isEmbedded) matches urls)
    ∧ ∀ u : string,
        u ∈ fold_left (LegacyUtils.push_url isEmbedded) matches urls
        ↔ u ∈ urls
          ∨ ∃ m : LegacyUtils.url_match,
              m ∈ matches ∧ LegacyUtils.matched_url m = Some u
              ∧ u ≠ EmptyString ∧ isEmbedded u = false.
Proof.
  induction matches as [|m matches IH]; intros urls Hnodup; simpl.
  - split; [done|]. intros u. split; [by left|].
    by intros [?|(? & ?%elem_of_nil & _)].
  - destruct (push_url_spec isEmbedded urls m Hnodup) as [Hnodup' Hin].
    destruct (IH _ Hnodup') as [Hres Hmem]. split; [done|].
    intros u. rewrite Hmem, Hin. split.
    + intros [[?|(? & ? & ?)]|(m' & ? & ?)]; [by left| |].
      * right. exists m. split; [by left|done].
      * right. exists m'. split; [by right|done].
    + intros [?|(m' & [->|?]%elem_of_cons & ? & ? & ?)].
      * by left; left.
      * by left; right.
      * right. by exists m'.
Qed.

Lemma or_else_first (captures : list (option string)) (path : string) :
  path ≠ EmptyString →
  foldr LegacyUtils.or_else None captures = Some path
  ↔ ∃ earlier later : list (option string),
      captures = earlier ++ Some path :: later
      ∧ Forall (λ g, g = None ∨ g = Some EmptyString) earlier.
Proof.
  intros Hpath. split.
  - induction captures as [|g captures IH]; simpl; [done|].
    destruct g as [[|c s]|]; simpl.
    + intros (earlier & later & -> & Hfalsy)%IH.
      exists (Some EmptyString :: earlier), later.
      split; [done|]. constructor; [by right|done].
    + intros [= <-]. exists [], captures. by split.
    + intros (earlier & later & -> & Hfalsy)%IH.
      exists (None :: earlier), later.
      split; [done|]. constructor; [by left|done].
  - intros (earlier & later & -> & Hfalsy).
    induction Hfalsy as [|g earlier [-> | ->] _ IH]; simpl; [|done|done].
    by destruct path.
Qed.

Lemma matched_url_first (m : LegacyUtils.url_match) (path : string) :
  path ≠ EmptyString →
  LegacyUtils.matched_url m = Some path
  ↔ ∃ earlier later : list (option string),
      [LegacyUtils.group3 m; LegacyUtils.group5 m; LegacyUtils.group6 m;
       LegacyUtils.group9 m; LegacyUtils.group11 m; LegacyUtils.group12 m]
      = earlier ++ Some path :: later
      ∧ Forall (λ g, g = None ∨ g = Some EmptyString) earlier.
Proof.
  intros Hpath. rewrite <-(or_else_first _ path Hpath).
  unfold LegacyUtils.matched_url. simpl.
  destruct (LegacyUtils.group12 m) as [[|c s]|]; simpl; [|done|done].
  destruct (LegacyUtils.group3 m) as [[|? ?]|], (LegacyUtils.group5 m) as [[|? ?]|],
    (LegacyUtils.group6 m) as [[|? ?]|], (LegacyUtils.group9 m) as [[|? ?]|],
    (LegacyUtils.group11 m) as [[|? ?]|]; simpl; try done.
  all: split; [intros [= <-]; done|done].
Qed.

(** X14: [parseStylesheetPaths] returns no path twice, and returns exactly
    the paths that some match of the expression captured, in the first of
    its groups 3, 5, 6, 9, 11 and 12 that took part in the match and is not
    empty, and that are neither embedded data nor remote. *)
Theorem parseStylesheetPaths_unique (isEmbedded : string → bool)
    (matches : list LegacyUtils.url_match) :
  NoDup (LegacyUtils.parseStylesheetPaths isEmbedded matches)
  ∧ ∀ path : string,
      path ∈ LegacyUtils.parseStylesheetPaths isEmbedded matches
      ↔ LegacyUtils.isRemotePath path = false
        ∧ ∃ m : LegacyUtils.url_match,
            m ∈ matches
            ∧ (∃ earlier later : list (option string),
                 [LegacyUtils.group3 m; LegacyUtils.group5 m; LegacyUtils.group6 m;
                  LegacyUtils.group9 m; LegacyUtils.group11 m; LegacyUtils.group12 m]
                 = earlier ++ Some path :: later
                 ∧ Forall (λ g, g = None ∨ g = Some EmptyString) earlier)
            ∧ path ≠ EmptyString ∧ isEmbedded path = false.
Proof.
  unfold LegacyUtils.parseStylesheetPaths, LegacyUtils.getUrls.
  destruct (getUrls_from isEmbedded matches []
              (NoDup_nil_2 : NoDup (@nil string))) as [Hnodup Hmem].
  split; [by apply NoDup_filter|].
  intros path. rewrite list_elem_of_filter, Hmem. split.
  - intros [? [?%elem_of_nil|(m & ? & Hm & Hpath & ?)]]; [done|].
    split; [done|]. exists m. by rewrite <-(matched_url_first m path Hpath).
  - intros [? (m & ? & Hm & Hpath & ?)]. split; [done|]. right.
    exists m. by rewrite (matched_url_first m path Hpath).
Qed.

Lemma parseStylesheetPaths_unique_witness :
  "b.css"
  ∈ LegacyUtils.parseStylesheetPaths (λ _, false)
      [LegacyUtils.UrlMatch None (Some EmptyString) (Some "b.css") None None
         (Some "c.css")]
  ∧ bool_decide
      ("c.css"
       ∈ LegacyUtils.parseStylesheetPaths (λ _, false)
           [LegacyUtils.UrlMatch None (Some EmptyString) (Some "b.css") None None
              (Some "c.css")])
    = false.
Proof.
  split; [|vm_compute; reflexivity].
  apply (proj2 (proj2 (parseStylesheetPaths_unique (λ _, false)
                         [LegacyUtils.UrlMatch None (Some EmptyString)
                            (Some "b.css") None None (Some "c.css")])
                  "b.css")).
  split; [reflexivity|]. eexists. split; [by left|]. split.
  - exists [None; Some EmptyString], [None; None; Some "c.css"].
    split; [reflexivity|].
    constructor; [by left|]. constructor; [by right|]. constructor.
  - split; [discriminate|reflexivity].
Defined.

(** ** The run and its fold *)

Lemma handleMiddleware_fold_steps (H : host) (n : node) (initialProps : loc)
    (steps : list mwid) (w : world) :
  handleMiddleware H n initialProps steps w
  = match fold_steps (reducer H n) initialProps steps w with
    | (w1, Normal final) => (set_previousProps <[n := final]> w1, Normal final)
    | (w1, Throw e) => (w1, Throw e)
    end.
Proof.
  rewrite handleMiddleware_run_pipeline. unfold run_pipeline. run.
  by destruct (fold_steps _ _ _ _) as [w1 [final|e]].
Qed.

(** ** [handleError], beyond the call of the handler *)

(** X16: when the value under the marker of the registered snapshot is not
    a function, [handleError] throws a [TypeError]; by then it has already
    made the registered snapshot with the error the element's previous
    props.  Nothing is logged and the life-cycle state is not touched. *)
Theorem handleError_handler_not_callable (H : host) (n : node) (e : value)
    (w : world) (registered : loc) :
  errorHandlers w !! n = Some registered →
  (∀ f : fn, fields (heap w) registered !! KHandler ≠ Some (VFun f)) →
  ∃ w' : world,
    handleError H n e w = (w', Throw (VErr TypeError "not a function"))
    ∧ previousProps w' !! n = Some (length (heap w))
    ∧ heap w' !! length (heap w)
      = Some (<[KStr "error" := e]> (fields (heap w) registered))
    ∧ errorHandlers w' = errorHandlers w
    ∧ out w' = out w
    ∧ lifecycle w' = lifecycle w.
Proof.
  intros Hreg Hnot. unfold handleError, call. run. rewrite Hreg. simpl.
  set (snapshot := <[KStr "error" := e]> (fields (heap w) registered)).
  assert (fields (heap w ++ [snapshot]) registered !! KHandler
          = fields (heap w) registered !! KHandler) as Hsame.
  { destruct (decide (registered < length (heap w))%nat) as [Hlt|Hge].
    - by rewrite fields_alloc_old.
    - assert (fields (heap w) registered = ∅) as Hempty.
      { unfold fields. by rewrite lookup_ge_None_2 by lia. }
      rewrite Hempty.
      destruct (decide (registered = length (heap w))) as [->|Hne].
      + rewrite fields_alloc_new. subst snapshot.
        by rewrite lookup_insert_ne, Hempty.
      + unfold fields. rewrite lookup_ge_None_2; [done|].
        rewrite length_app. simpl. lia. }
  rewrite Hsame.
  destruct (fields (heap w) registered !! KHandler) as [[| | | | | |f| | |]|] eqn:Hh;
    simpl; try (by specialize (Hnot f)).
  all: eexists; split; [reflexivity|]; simpl.
  all: rewrite lookup_insert_eq, lookup_app_l by (rewrite length_app; simpl; lia).
  all: by rewrite list_lookup_middle.
Qed.

Lemma handleError_handler_not_callable_witness :
  ∃ w' : world,
    handleError idle_host 5%nat (VErr Error "boom") world_bad_handler
    = (w', Throw (VErr TypeError "not a function"))
    ∧ previousProps w' !! 5%nat = Some (length (heap world_bad_handler))
    ∧ heap w' !! length (heap world_bad_handler)
      = Some (<[KStr "error" := VErr Error "boom"]>
                (fields (heap world_bad_handler) 0%nat))
    ∧ errorHandlers w' = errorHandlers world_bad_handler
    ∧ out w' = out world_bad_handler
    ∧ lifecycle w' = lifecycle world_bad_handler.
Proof.
  apply (handleError_handler_not_callable idle_host 5%nat (VErr Error "boom")
           world_bad_handler 0%nat).
  - reflexivity.
  - intros f. vm_compute. discriminate.
Defined.

Lemma handleError_foreign (H : host) (n : node) (e : value) (w : world)
    (registered : loc) (id : nat) :
  errorHandlers w !! n = Some registered →
  fields (heap w) registered !! KHandler = Some (VFun (FExt id)) →
  ∃ h : list props,
    (handleError H n e w).1
    = set_heap (λ _, h)
        (set_out (λ o, o ++ [Called (FExt id) [VObj (S (length (heap w)))]])
           (set_previousProps <[n := length (heap w)]> w)).
Proof.
  intros Hreg Hf. rewrite (handleError_found H n e w registered (FExt id) Hreg Hf).
  cbv [mbind M_bind apply]. simpl.
  destruct (foreign_run H id _ _) as [h [v|e']]; by exists h.
Qed.

(** ** From one pass to the next *)

Lemma getInitialProps_snapshot (n : node) (mergeProps : value) (task : pid)
    (w : world) (prev : option loc) :
  previousProps w !! n = prev →
  ∃ snapshot : props,
    getInitialProps n mergeProps task w
    = (set_heap (λ h, h ++ [snapshot]) w, Normal (length (heap w)))
    ∧ snapshot
      = helpers n prev task
        ∪ spread (spread ∅ (from_option (fields (heap w)) ∅ prev))
            (own_fields (heap w) mergeProps).
Proof.
  intros <-. unfold getInitialProps. run. eexists. split; [reflexivity|].
  unfold helpers. apply map_eq. intros i.
  rewrite lookup_union, !lookup_insert, lookup_singleton.
  repeat case_decide; simplify_eq; try reflexivity.
  all: by destruct (spread _ _ !! _).
Qed.

Lemma seeded_lookup (top middle bottom : props) (k : key) :
  top !! k = None → middle !! k = None →
  (top ∪ spread (spread ∅ bottom) middle) !! k = bottom !! k.
Proof.
  intros Htop Hmiddle. unfold spread.
  rewrite !lookup_union, Htop, Hmiddle, lookup_empty.
  by destruct (bottom !! k).
Qed.

Lemma helpers_prevProps (n : node) (prev : option loc) (task : pid) (m : props) :
  (helpers n prev task ∪ m) !! KStr "prevProps"
  = Some (from_option VObj VNull prev).
Proof.
  rewrite lookup_union. unfold helpers. rewrite !lookup_insert.
  repeat case_decide; simplify_eq. by destruct (m !! _).
Qed.

(** X18: what a completed run of [handleMiddleware] returned is what the
    next [getInitialProps] of the element starts from: the new snapshot
    refers to it under [prevProps], and has each of its properties that is
    neither a helper nor overridden by the merge props. *)
Theorem persisted_props_seed_next_pass (H : host) (n : node) (initialProps : loc)
    (steps : list mwid) (w w1 : world) (final : loc) (mergeProps : value)
    (task : pid) :
  handleMiddleware H n initialProps steps w = (w1, Normal final) →
  ∃ next : props,
    getInitialProps n mergeProps task w1
    = (set_heap (λ h, h ++ [next]) w1, Normal (length (heap w1)))
    ∧ next !! KStr "prevProps" = Some (VObj final)
    ∧ ∀ k : key,
        helpers n (Some final) task !! k = None →
        own_fields (heap w1) mergeProps !! k = None →
        next !! k = fields (heap w1) final !! k.
Proof.
  rewrite handleMiddleware_fold_steps.
  destruct (fold_steps _ _ _ _) as [w0 [l|e]]; [|done]. intros [= <- <-].
  destruct (getInitialProps_snapshot n mergeProps task
              (set_previousProps <[n := l]> w0) (Some l))
    as (next & Hrun & ->); [simpl; by rewrite lookup_insert_eq|].
  eexists. split; [exact Hrun|]. simpl.
  split; [apply helpers_prevProps|]. intros k Htop Hmiddle. by apply seeded_lookup.
Qed.

Lemma persisted_props_seed_next_pass_witness :
  ∃ next : props,
    getInitialProps 5%nat VUndefined 0%nat
      (handleMiddleware sample_host 5%nat 0%nat [0%nat; 1%nat] world_initial).1
    = (set_heap (λ h, h ++ [next])
         (handleMiddleware sample_host 5%nat 0%nat [0%nat; 1%nat] world_initial).1,
       Normal
         (length
            (heap (handleMiddleware sample_host 5%nat 0%nat [0%nat; 1%nat]
                     world_initial).1)))
    ∧ next !! KStr "prevProps" = Some (VObj 4%nat)
    ∧ ∀ k : key,
        helpers 5%nat (Some 4%nat) 0%nat !! k = None →
        own_fields
          (heap (handleMiddleware sample_host 5%nat 0%nat [0%nat; 1%nat]
                   world_initial).1)
          VUndefined !! k = None →
        next !! k
        = fields
            (heap (handleMiddleware sample_host 5%nat 0%nat [0%nat; 1%nat]
                     world_initial).1)
            4%nat !! k.
Proof.
  apply (persisted_props_seed_next_pass sample_host 5%nat 0%nat [0%nat; 1%nat]
           world_initial
           (handleMiddleware sample_host 5%nat 0%nat [0%nat; 1%nat] world_initial).1
           4%nat VUndefined 0%nat).
  vm_compute. reflexivity.
Defined.

(** X19: after [handleError] has called a recovery handler that is foreign
    to the library and that left the persisted object alone, the next
    [getInitialProps] of the element starts from the registered snapshot and
    the error: the new snapshot refers to the persisted object under
    [prevProps], has the error under [error] unless the merge props override
    it, and has each property of the registered snapshot that is neither a
    helper nor overridden. *)
Theorem recovered_error_seeds_next_pass (H : host) (n : node) (e : value)
    (w : world) (registered : loc) (id : nat) (mergeProps : value) (task : pid) :
  errorHandlers w !! n = Some registered →
  fields (heap w) registered !! KHandler = Some (VFun (FExt id)) →
  fields (heap (handleError H n e w).1) (length (heap w))
  = <[KStr "error" := e]> (fields (heap w) registered) →
  ∃ next : props,
    getInitialProps n mergeProps task (handleError H n e w).1
    = (set_heap (λ h, h ++ [next]) (handleError H n e w).1,
       Normal (length (heap (handleError H n e w).1)))
    ∧ next !! KStr "prevProps" = Some (VObj (length (heap w)))
    ∧ (own_fields (heap (handleError H n e w).1) mergeProps !! KStr "error" = None →
       next !! KStr "error" = Some e)
    ∧ ∀ k : key,
        k ≠ KStr "error" →
        helpers n (Some (length (heap w))) task !! k = None →
        own_fields (heap (handleError H n e w).1) mergeProps !! k = None →
        next !! k = fields (heap w) registered !! k.
Proof.
  intros Hreg Hf.
  destruct (handleError_foreign H n e w registered id Hreg Hf) as [h ->].
  set (w' := set_heap _ _). intros Hkept.
  destruct (getInitialProps_snapshot n mergeProps task w'
              (Some (length (heap w)))) as (next & Hrun & ->).
  { subst w'. simpl. by rewrite lookup_insert_eq. }
  eexists. split; [exact Hrun|].
  cbn [from_option]. split; [apply helpers_prevProps|]. split.
  - intros Hmiddle. rewrite seeded_lookup, Hkept by done.
    by rewrite lookup_insert_eq.
  - intros k Hk Htop Hmiddle. rewrite seeded_lookup, Hkept by done.
    by rewrite lookup_insert_ne.
Qed.

Lemma recovered_error_seeds_next_pass_witness :
  ∃ next : props,
    getInitialProps 5%nat VUndefined 0%nat
      (handleError idle_host 5%nat (VErr Error "boom") world_registered).1
    = (set_heap (λ h, h ++ [next])
         (handleError idle_host 5%nat (VErr Error "boom") world_registered).1,
       Normal
         (length
            (heap (handleError idle_host 5%nat (VErr Error "boom")
                     world_registered).1)))
    ∧ next !! KStr "prevProps" = Some (VObj (length (heap world_registered)))
    ∧ (own_fields
         (heap (handleError idle_host 5%nat (VErr Error "boom") world_registered).1)
         VUndefined !! KStr "error" = None →
       next !! KStr "error" = Some (VErr Error "boom"))
    ∧ ∀ k : key,
        k ≠ KStr "error" →
        helpers 5%nat (Some (length (heap world_registered))) 0%nat !! k = None →
        own_fields
          (heap (handleError idle_host 5%nat (VErr Error "boom")
                   world_registered).1)
          VUndefined !! k = None →
        next !! k = fields (heap world_registered) 0%nat !! k.
Proof.
  apply (recovered_error_seeds_next_pass idle_host 5%nat (VErr Error "boom")
           world_registered 0%nat 7%nat VUndefined 0%nat).
  - reflexivity.
  - reflexivity.
  - vm_compute. reflexivity.
Defined.

(** ** [resolved], called again *)

(** X20: [resolved()] only adds promises: it changes no promise that
    existed, nothing of the heap and nothing of the trace, so that calling
    it again for the same task answers the same, in another new promise. *)
Theorem resolved_is_repeatable (task : pid) (w : world) :
  (task < length (promises w))%nat →
  ∃ (w1 : world) (a1 : pid) (w2 : world) (a2 : pid),
    resolved task w = (w1, Normal (VPromise a1))
    ∧ resolved task w1 = (w2, Normal (VPromise a2))
    ∧ a1 ≠ a2
    ∧ promise_state w2 a2 = promise_state w1 a1
    ∧ promise_state w2 a1 = promise_state w1 a1
    ∧ (∀ p : pid, (p < length (promises w))%nat →
         promise_state w2 p = promise_state w p)
    ∧ heap w2 = heap w
    ∧ out w2 = out w.
Proof.
  intros Htask. unfold resolved, Promise_resolve, Promise_race.
  cbv [mbind M_bind mret M_ret gets new_promise].
  eexists _, _, _, _. split; [reflexivity|]. split; [reflexivity|].
  cbn [fmap list_fmap].
  rewrite !promise_state_alloc. cbn [promises set_promises heap out].
  rewrite !length_app. cbn [length].
  split; [lia|]. split; [|split; [|split; [|done]]].
  - repeat (case_decide; try lia). reflexivity.
  - repeat (case_decide; try lia). reflexivity.
  - intros p Hp. rewrite !promise_state_alloc. cbn [promises set_promises].
    rewrite !length_app. cbn [length].
    repeat (case_decide; try lia). reflexivity.
Qed.

Lemma resolved_is_repeatable_witness :
  ∃ (w1 : world) (a1 : pid) (w2 : world) (a2 : pid),
    resolved 0%nat world_pending_task = (w1, Normal (VPromise a1))
    ∧ resolved 0%nat w1 = (w2, Normal (VPromise a2))
    ∧ a1 ≠ a2
    ∧ promise_state w2 a2 = promise_state w1 a1
    ∧ promise_state w2 a1 = promise_state w1 a1
    ∧ (∀ p : pid, (p < length (promises world_pending_task))%nat →
         promise_state w2 p = promise_state world_pending_task p)
    ∧ heap w2 = heap world_pending_task
    ∧ out w2 = out world_pending_task.
Proof.
  apply (resolved_is_repeatable 0%nat world_pending_task). vm_compute. lia.
Defined.

(** ** The earlier [dispatchEvent] and [getInitialProps] *)

(** X21: the earlier [dispatchEvent] dispatches one bubbling, composed event
    whose detail is the payload spread as it is, with the version string on
    top, and returns nothing.  For a payload that [typeof] calls an object
    the detail is the one of the current revision but for the version; a
    payload that is neither an object nor a string is lost, where the current
    revision carries it under [value]. *)
Theorem legacy_dispatchEvent_spreads (H : host) (n : node) (name payload : value)
    (w : world) :
  ∃ (w' : world) (event : loc) (detail : props),
    LegacyUtils.dispatchEvent n name payload w = (w', Normal VUndefined)
    ∧ out w' = out w ++ [Dispatched n name event true true]
    ∧ heap w' !! event = Some detail
    ∧ detail !! KStr "version" = Some (VStr "3.0.0")
    ∧ (∀ k : key, k ≠ KStr "version" →
         detail !! k = own_fields (heap w) payload !! k)
    ∧ (typeof payload = "object" →
       ∃ (w2 : world) (detail2 : props),
         (dispatchEvent H n name payload w).1 = w2
         ∧ out w2 = out w'
         ∧ heap w2 !! event = Some detail2
         ∧ ∀ k : key, k ≠ KStr "version" → detail2 !! k = detail !! k)
    ∧ (typeof payload ≠ "object" → typeof payload ≠ "string" →
       detail = {[ KStr "version" := VStr "3.0.0" ]}
       ∧ ∃ (w2 : world) (wrapped : loc) (detail2 : props),
           (dispatchEvent H n name payload w).1 = w2
           ∧ out w2 = out w ++ [Dispatched n name wrapped true true]
           ∧ heap w2 !! wrapped = Some detail2
           ∧ detail2 !! KStr "value" = Some payload).
Proof.
  unfold LegacyUtils.dispatchEvent. run.
  eexists _, _, _. split; [reflexivity|]. simpl. split; [reflexivity|].
  split; [by rewrite list_lookup_middle|].
  split; [by rewrite lookup_insert_eq|].
  split; [intros k Hk; by rewrite lookup_insert_ne|]. split.
  - intros Hobj. unfold dispatchEvent. rewrite decide_True by done. run.
    eexists _, _. split; [reflexivity|]. simpl. split; [reflexivity|].
    split; [by rewrite list_lookup_middle|].
    intros k Hk. by rewrite !lookup_insert_ne.
  - intros Hobj Hstr. split.
    + by destruct payload.
    + unfold dispatchEvent. rewrite decide_False by done. run.
      rewrite fields_alloc_new.
      eexists _, _, _. split; [reflexivity|]. simpl. split; [reflexivity|].
      split; [by rewrite list_lookup_middle|].
      by rewrite lookup_insert_ne, lookup_singleton_eq.
Qed.

Lemma legacy_dispatchEvent_spreads_witness :
  ∃ (w' : world) (event : loc) (detail : props),
    LegacyUtils.dispatchEvent 5%nat (VStr "changed") (VNum 7) empty_world
    = (w', Normal VUndefined)
    ∧ detail = {[ KStr "version" := VStr "3.0.0" ]}
    ∧ heap w' !! event = Some detail
    ∧ ∃ (w2 : world) (wrapped : loc) (detail2 : props),
        (dispatchEvent idle_host 5%nat (VStr "changed") (VNum 7) empty_world).1 = w2
        ∧ out w2 = out empty_world
                   ++ [Dispatched 5%nat (VStr "changed") wrapped true true]
        ∧ heap w2 !! wrapped = Some detail2
        ∧ detail2 !! KStr "value" = Some (VNum 7).
Proof.
  destruct (legacy_dispatchEvent_spreads idle_host 5%nat (VStr "changed") (VNum 7)
              empty_world)
    as (w' & event & detail & Hrun & _ & Hheap & _ & _ & _ & Hlost).
  destruct Hlost as [Hdetail Hcurrent]; [discriminate|discriminate|].
  exists w', event, detail. by repeat split.
Defined.

(** X22: the snapshot that the earlier [getInitialProps] builds is layered
    like the current one, with other helpers: [isResolved], the element, the
    bound [render], [dispatch] and [prevProps].  What it holds under
    [dispatch] is the module's [dispatchEvent] itself, the same function
    for every element, not one bound to the element; and neither [abort] nor
    [resolved] is a helper, so that a property of one of these names is the
    merge props' or the previous snapshot's. *)
Theorem legacy_getInitialProps_layers (dispatch : value) (n : node)
    (mergeProps : value) (task : pid) (w : world) :
  let prev := previousProps w !! n in
  ∃ snapshot : props,
    LegacyUtils.getInitialProps dispatch n mergeProps task w
    = (set_heap (λ h, h ++ [snapshot]) w, Normal (length (heap w)))
    ∧ (∀ k : key,
         snapshot !! k
         = layered (LegacyUtils.helpers dispatch n prev task)
                   (own_fields (heap w) mergeProps)
                   (from_option (fields (heap w)) ∅ prev) k)
    ∧ snapshot !! KStr "dispatch" = Some dispatch
    ∧ (∀ k : key, k = KStr "abort" ∨ k = KStr "resolved" →
         snapshot !! k
         = layered ∅ (own_fields (heap w) mergeProps)
                   (from_option (fields (heap w)) ∅ prev) k).
Proof.
  intros prev. unfold LegacyUtils.getInitialProps. run. fold prev.
  eexists. split; [reflexivity|].
  assert (∀ k : key,
            <[KStr "prevProps" := from_option VObj VNull prev]>
              (<[KStr "dispatch" := dispatch]>
                 (<[KStr "render" := VFun (FRender n)]>
                    (<[KStr "node" := VNode n]>
                       (<[KStr "isResolved" := VFun (FResolved task)]>
                          (spread (spread ∅ (from_option (fields (heap w)) ∅ prev))
                             (own_fields (heap w) mergeProps)))))) !! k
            = layered (LegacyUtils.helpers dispatch n prev task)
                (own_fields (heap w) mergeProps)
                (from_option (fields (heap w)) ∅ prev) k) as Hlayers.
  { intros k. rewrite <-layered_spread. f_equal.
    unfold LegacyUtils.helpers. apply map_eq. intros i.
    rewrite lookup_union, !lookup_insert, lookup_singleton.
    repeat case_decide; simplify_eq; try reflexivity.
    all: by destruct (spread _ _ !! _). }
  split; [exact Hlayers|]. split.
  - rewrite lookup_insert_ne by done. by rewrite lookup_insert_eq.
  - intros k Hk. rewrite Hlayers. unfold layered, LegacyUtils.helpers.
    rewrite lookup_empty.
    by destruct Hk as [-> | ->].
Qed.

(** ** The earlier [processMiddleware], when a step throws *)


(** ** Middleware and handlers that call back *)

Lemma registrations_kept_refl (w : world) : registrations_kept w w.
Proof. by intros n. Qed.

Lemma registrations_kept_trans (w1 w2 w3 : world) :
  registrations_kept w1 w2 → registrations_kept w2 w3 → registrations_kept w1 w3.
Proof. intros H12 H23 n Hn. by apply H23, H12. Qed.

Lemma elsewhere_kept_refl (n : node) (w : world) : elsewhere_kept n w w.
Proof. by intros n' Hn'. Qed.

Lemma elsewhere_kept_trans (n : node) (w1 w2 w3 : world) :
  elsewhere_kept n w1 w2 → elsewhere_kept n w2 w3 → elsewhere_kept n w1 w3.
Proof.
  intros H12 H23 n' Hn'.
  destruct (H12 n' Hn') as (? & ? & ? & ?), (H23 n' Hn') as (? & ? & ? & ?).
  repeat split; congruence.
Qed.

Lemma fold_steps_ext (step1 step2 : M loc → mwid → M loc) :
  (∀ (acc : loc) (m : mwid) (w : world), step1 (mret acc) m w = step2 (mret acc) m w) →
  ∀ (steps : list mwid) (acc : loc) (w : world),
    fold_steps step1 acc steps w = fold_steps step2 acc steps w.
Proof.
  intros Hstep steps. induction steps as [|m steps IH]; intros acc w; simpl;
    [done|].
  cbv [mbind M_bind]. rewrite Hstep.
  destruct (step2 (mret acc) m w) as [w1 [next|e]]; [apply IH|done].
Qed.

Lemma reentrant_reducer_bind (H : Reentrant.host) (n : node) (accumP : M loc)
    (m : mwid) (w : world) :
  Reentrant.reducer H n accumP m w
  = (accumP ≫= λ acc, Reentrant.reducer H n (mret acc) m) w.
Proof.
  unfold Reentrant.reducer. cbv [mbind M_bind mret M_ret].
  destruct (accumP w) as [w1 [acc|e]]; reflexivity.
Qed.

Lemma reentrant_handleMiddleware_fold_steps (H : Reentrant.host) (n : node)
    (initialProps : loc) (steps : list mwid) (w : world) :
  Reentrant.handleMiddleware H n initialProps steps w
  = match fold_steps (Reentrant.reducer H n) initialProps steps w with
    | (w1, Normal final) => (set_previousProps <[n := final]> w1, Normal final)
    | (w1, Throw e) => (w1, Throw e)
    end.
Proof.
  unfold Reentrant.handleMiddleware.
  rewrite (reduce_run_pipeline _ n (reentrant_reducer_bind H n)).
  unfold run_pipeline. run.
  by destruct (fold_steps _ _ _ _) as [w1 [final|e]].
Qed.

Lemma reentrant_reducer_agrees (H : host) (n : node) (acc : loc) (m : mwid)
    (w : world) :
  Reentrant.reducer (reentrant H) n (mret acc) m w = reducer H n (mret acc) m w.
Proof.
  unfold Reentrant.reducer, Reentrant.call_middleware, reducer, call_middleware.
  run.
  destruct (middleware_run H m _ _) as [h [[l|k]|e]]; simpl; [| |reflexivity].
  - unfold Reentrant.register, register. run. by case_bool_decide.
  - unfold settle, await. simpl. by destruct (k h) as [h' [l|e]].
Qed.

Lemma reentrant_call_agrees (H : host) (callee : value) (args : list value)
    (w : world) :
  Reentrant.call (reentrant H) callee args w = call H callee args w.
Proof. destruct callee as [| | | | | |f| | |]; try reflexivity. by destruct f. Qed.

(** What the functions of the module write themselves: objects of the heap,
    the trace, and the registration and the previous props of the element
    they are called for.  A relation between worlds that such writes keep,
    and that the middleware or the handler keeps, is kept by the call. *)
Section frame.

Variable R : world → world → Prop.
Variable n : node.
Variable H : Reentrant.host.

Hypothesis R_refl : ∀ w : world, R w w.
Hypothesis R_trans : ∀ w1 w2 w3 : world, R w1 w2 → R w2 w3 → R w1 w3.
Hypothesis R_heap : ∀ (f : list props → list props) (w : world), R w (set_heap f w).
Hypothesis R_out : ∀ (f : list effect → list effect) (w : world), R w (set_out f w).
Hypothesis R_registered : ∀ (l : loc) (w : world),
  R w (set_errorHandlers <[n := l]> w).
Hypothesis R_persisted : ∀ (l : loc) (w : world),
  R w (set_previousProps <[n := l]> w).

Hypothesis steps_keep : ∀ (m : mwid) (arg : loc),
  keeps R (Reentrant.middleware_run H m arg).
Hypothesis promises_keep : ∀ (m : mwid) (arg : loc) (w : world) (k : M loc),
  (Reentrant.middleware_run H m arg w).2 = Normal (Reentrant.Promise k) →
  keeps R k.

Lemma frame_reducer (acc : loc) (m : mwid) :
  keeps R (Reentrant.reducer H n (mret acc) m).
Proof.
  intros w. unfold Reentrant.reducer, Reentrant.call_middleware. run.
  match goal with
  | |- context [Reentrant.middleware_run H m ?arg ?w1] =>
      assert (R w w1) as Hbefore
        by (eapply R_trans; [eapply R_trans; [apply R_heap|apply R_heap]|apply R_out]);
      pose proof (steps_keep m arg w1) as Hstep;
      pose proof (promises_keep m arg w1) as Hpromise;
      destruct (Reentrant.middleware_run H m arg w1) as [w2 [[l|k]|e]]
  end; simpl in *.
  - assert (R w w2) as Hafter by (by eapply R_trans).
    unfold Reentrant.register. run. case_bool_decide; simpl; [|done].
    eapply R_trans; [exact Hafter|apply R_registered].
  - specialize (Hpromise k eq_refl w2).
    destruct (k w2) as [w3 [l|e]]; simpl in *;
      (eapply R_trans; [|exact Hpromise]); by eapply R_trans.
  - by eapply R_trans.
Qed.

Lemma frame_handleMiddleware (initialProps : loc) (steps : list mwid) :
  keeps R (Reentrant.handleMiddleware H n initialProps steps).
Proof.
  intros w. rewrite reentrant_handleMiddleware_fold_steps.
  assert (∀ (steps0 : list mwid) (acc : loc),
            keeps R (fold_steps (Reentrant.reducer H n) acc steps0)) as Hfold.
  { intros steps0. induction steps0 as [|m steps0 IH]; intros acc w0; simpl.
    - apply R_refl.
    - cbv [mbind M_bind]. pose proof (frame_reducer acc m w0) as Hstep.
      destruct (Reentrant.reducer H n (mret acc) m w0) as [w1 [next|e]];
        simpl in *; [|done].
      eapply R_trans; [exact Hstep|apply IH]. }
  specialize (Hfold steps initialProps w).
  destruct (fold_steps _ _ _ _) as [w1 [final|e]]; simpl in *; [|done].
  eapply R_trans; [exact Hfold|apply R_persisted].
Qed.

End frame.

Lemma elsewhere_kept_delete (n : node) (w w' : world) :
  delete n (previousProps w') = delete n (previousProps w) →
  delete n (errorHandlers w') = delete n (errorHandlers w) →
  delete n (lifecycle w') = delete n (lifecycle w) →
  delete n (queue w') = delete n (queue w) →
  elsewhere_kept n w w'.
Proof.
  intros Hprev Hreg Hlife Hqueue n' Hn'.
  rewrite <-(lookup_delete_ne (previousProps w') n n'),
    <-(lookup_delete_ne (errorHandlers w') n n'),
    <-(lookup_delete_ne (lifecycle w') n n'),
    <-(lookup_delete_ne (queue w') n n') by done.
  rewrite Hprev, Hreg, Hlife, Hqueue.
  by rewrite !lookup_delete_ne by done.
Qed.

Lemma elsewhere_kept_heap (n : node) (f : list props → list props) (w : world) :
  elsewhere_kept n w (set_heap f w).
Proof. by intros n' Hn'. Qed.

Lemma elsewhere_kept_out (n : node) (f : list effect → list effect) (w : world) :
  elsewhere_kept n w (set_out f w).
Proof. by intros n' Hn'. Qed.

Lemma elsewhere_kept_registered (n : node) (l : loc) (w : world) :
  elsewhere_kept n w (set_errorHandlers <[n := l]> w).
Proof. intros n' Hn'. repeat split. simpl. by rewrite lookup_insert_ne. Qed.

Lemma elsewhere_kept_persisted (n : node) (l : loc) (w : world) :
  elsewhere_kept n w (set_previousProps <[n := l]> w).
Proof. intros n' Hn'. repeat split. simpl. by rewrite lookup_insert_ne. Qed.

Lemma registrations_kept_heap (f : list props → list props) (w : world) :
  registrations_kept w (set_heap f w).
Proof. by intros n' Hn'. Qed.

Lemma registrations_kept_out (f : list effect → list effect) (w : world) :
  registrations_kept w (set_out f w).
Proof. by intros n' Hn'. Qed.

Lemma registrations_kept_persisted (n : node) (l : loc) (w : world) :
  registrations_kept w (set_previousProps <[n := l]> w).
Proof. by intros n' Hn'. Qed.

Lemma registrations_kept_registered (n : node) (l : loc) (w : world) :
  registrations_kept w (set_errorHandlers <[n := l]> w).
Proof.
  intros n' Hn'. simpl. destruct (decide (n' = n)) as [->|?];
    [by rewrite lookup_insert_eq|by rewrite lookup_insert_ne].
Qed.

(** X15: of the module's side tables, a run of [handleMiddleware] for an
    element writes the element's registration and previous props only, and
    it removes no registration.  The middleware functions may do anything
    the program lets them do, calls of the [render] they are handed
    included: when no step, and no promise a step returns, touches the
    previous props, registration, life-cycle state or tasks of another
    element, the run does not either, whether it completes or throws; and
    when none of them removes a registration, no element has lost its
    registration after the run.  On a host whose functions act on the heap
    only, the run is the one of [handleMiddleware] over that host. *)
Theorem handleMiddleware_writes_one_element (H : Reentrant.host) (n : node)
    (initialProps : loc) (steps : list mwid) (w : world) :
  ((∀ (m : mwid) (arg : loc),
      keeps (elsewhere_kept n) (Reentrant.middleware_run H m arg)) →
   (∀ (m : mwid) (arg : loc) (w0 : world) (k : M loc),
      (Reentrant.middleware_run H m arg w0).2 = Normal (Reentrant.Promise k) →
      keeps (elsewhere_kept n) k) →
   elsewhere_kept n w (Reentrant.handleMiddleware H n initialProps steps w).1)
  ∧ ((∀ (m : mwid) (arg : loc),
        keeps registrations_kept (Reentrant.middleware_run H m arg)) →
     (∀ (m : mwid) (arg : loc) (w0 : world) (k : M loc),
        (Reentrant.middleware_run H m arg w0).2 = Normal (Reentrant.Promise k) →
        keeps registrations_kept k) →
     registrations_kept w (Reentrant.handleMiddleware H n initialProps steps w).1)
  ∧ (∀ H0 : host,
       Reentrant.handleMiddleware (reentrant H0) n initialProps steps w
       = handleMiddleware H0 n initialProps steps w).
Proof.
  split; [|split].
  - intros Hsteps Hpromises.
    apply (frame_handleMiddleware (elsewhere_kept n) n H (elsewhere_kept_refl n)
             (elsewhere_kept_trans n) (elsewhere_kept_heap n) (elsewhere_kept_out n)
             (elsewhere_kept_registered n) (elsewhere_kept_persisted n)
             Hsteps Hpromises).
  - intros Hsteps Hpromises.
    apply (frame_handleMiddleware registrations_kept n H registrations_kept_refl
             registrations_kept_trans registrations_kept_heap
             registrations_kept_out (registrations_kept_registered n)
             (registrations_kept_persisted n) Hsteps Hpromises).
  - intros H0.
    rewrite reentrant_handleMiddleware_fold_steps, handleMiddleware_fold_steps.
    by rewrite (fold_steps_ext _ _ (reentrant_reducer_agrees H0 n)).
Qed.

Lemma handleMiddleware_writes_one_element_witness :
  elsewhere_kept 5%nat world_initial
    (Reentrant.handleMiddleware calling_host 5%nat 0%nat [0%nat; 1%nat]
       world_initial).1
  ∧ tasks_of
      (Reentrant.handleMiddleware calling_host 5%nat 0%nat [0%nat; 1%nat]
         world_initial).1 5%nat
    = {[0%nat; 1%nat]}.
Proof.
  split.
  - apply (proj1 (handleMiddleware_writes_one_element calling_host 5%nat 0%nat
                    [0%nat; 1%nat] world_initial)).
    + intros [|m] arg w n' Hn'; simpl; by rewrite ?lookup_insert_ne.
    + intros [|m] arg w0 k; simpl; intros [= <-]. intros w n' Hn'. simpl.
      by rewrite ?lookup_insert_ne.
  - vm_compute. reflexivity.
Defined.

Lemma reentrant_handleError_found (H : Reentrant.host) (n : node) (e : value)
    (w : world) (registered : loc) (f : fn) :
  errorHandlers w !! n = Some registered →
  fields (heap w) registered !! KHandler = Some (VFun f) →
  let snapshot := fields (heap w) registered in
  let w1 :=
    set_out (λ o, o ++ [Called f [VObj (S (length (heap w)))]])
      (set_heap
         (λ h, h ++ [<[KStr "error" := e]> snapshot;
                     <[KStr "render" := VFun (FRecover n)]>
                       (<[KStr "error" := e]> snapshot)])
         (set_previousProps <[n := length (heap w)]> w)) in
  Reentrant.handleError H n e w
  = (Reentrant.apply H f [VObj (S (length (heap w)))] ≫= λ _, mret VUndefined) w1.
Proof.
  intros Hreg Hf snapshot w1. subst snapshot w1.
  pose proof (fields_is_Some _ _ _ _ Hf) as Hlt.
  unfold Reentrant.handleError, Reentrant.call. run. rewrite Hreg. simpl.
  rewrite fields_alloc_old by done. rewrite Hf. simpl.
  rewrite length_app. simpl.
  replace (length (heap w) + 1)%nat with (S (length (heap w))) by lia.
  match goal with
  | |- (let (_, _) := Reentrant.apply _ _ _ ?a in _)
       = (let (_, _) := Reentrant.apply _ _ _ ?b in _) =>
      replace a with b; [reflexivity|]
  end.
  unfold set_out, set_heap, set_previousProps. simpl. by rewrite <-app_assoc.
Qed.

(** X17: of the module's side tables, [handleError] writes the element's
    previous props only.  Without a registration it touches nothing of any
    element.  With a registration whose handler is a function, it is the
    call of the handler in the world where the snapshot with the error has
    been persisted; the handler may do anything the program lets it do, the
    call of the recovery callback it is handed included: when that call
    touches nothing of another element, [handleError] does not either, and
    when it removes no registration, no element has lost its registration
    afterwards.  On a host whose functions act on the heap only, this is
    [handleError] over that host. *)
Theorem handleError_writes_one_element (H : Reentrant.host) (n : node)
    (e : value) (w : world) :
  (errorHandlers w !! n = None →
   elsewhere_kept n w (Reentrant.handleError H n e w).1
   ∧ lifecycle (Reentrant.handleError H n e w).1 = lifecycle w
   ∧ previousProps (Reentrant.handleError H n e w).1 = previousProps w
   ∧ errorHandlers (Reentrant.handleError H n e w).1 = errorHandlers w)
  ∧ (∀ (registered : loc) (f : fn),
       errorHandlers w !! n = Some registered →
       fields (heap w) registered !! KHandler = Some (VFun f) →
       let snapshot := fields (heap w) registered in
       let w1 :=
         set_out (λ o, o ++ [Called f [VObj (S (length (heap w)))]])
           (set_heap
              (λ h, h ++ [<[KStr "error" := e]> snapshot;
                          <[KStr "render" := VFun (FRecover n)]>
                            (<[KStr "error" := e]> snapshot)])
              (set_previousProps <[n := length (heap w)]> w)) in
       let handled := (Reentrant.apply H f [VObj (S (length (heap w)))] w1).1 in
       (Reentrant.handleError H n e w).1 = handled
       ∧ (elsewhere_kept n w1 handled →
          elsewhere_kept n w (Reentrant.handleError H n e w).1)
       ∧ (registrations_kept w1 handled →
          registrations_kept w (Reentrant.handleError H n e w).1))
  ∧ (∀ H0 : host,
       Reentrant.handleError (reentrant H0) n e w = handleError H0 n e w).
Proof.
  split; [|split].
  - intros Hnone. unfold Reentrant.handleError. run. rewrite Hnone. simpl.
    by repeat split.
  - intros registered f Hreg Hf snapshot w1 handled.
    assert ((Reentrant.handleError H n e w).1 = handled) as Hrun.
    { rewrite (reentrant_handleError_found H n e w registered f Hreg Hf).
      fold snapshot. fold w1. subst handled. cbv [mbind M_bind].
      by destruct (Reentrant.apply H f _ w1) as [w2 [v|e']]. }
    split; [exact Hrun|]. rewrite Hrun. split.
    + intros Hkept. eapply elsewhere_kept_trans; [|exact Hkept]. subst w1.
      eapply elsewhere_kept_trans; [apply elsewhere_kept_persisted|].
      eapply elsewhere_kept_trans; [apply elsewhere_kept_heap|].
      apply elsewhere_kept_out.
    + intros Hkept. eapply registrations_kept_trans; [|exact Hkept]. subst w1.
      by intros n' Hn'.
  - intros H0. unfold Reentrant.handleError, handleError. run.
    destruct (errorHandlers w !! n) as [registered|]; simpl; [|reflexivity].
    by rewrite reentrant_call_agrees.
Qed.

Lemma handleError_writes_one_element_witness :
  ((Reentrant.handleError calling_host 5%nat (VErr Error "boom") world_registered).1
   = (Reentrant.apply calling_host (FExt 7) [VObj 2%nat]
        (set_out (λ o, o ++ [Called (FExt 7) [VObj 2%nat]])
           (set_heap
              (λ h, h ++ [<[KStr "error" := VErr Error "boom"]>
                            (fields (heap world_registered) 0%nat);
                          <[KStr "render" := VFun (FRecover 5%nat)]>
                            (<[KStr "error" := VErr Error "boom"]>
                               (fields (heap world_registered) 0%nat))])
              (set_previousProps <[5%nat := 1%nat]> world_registered)))).1
   ∧ elsewhere_kept 5%nat world_registered
       (Reentrant.handleError calling_host 5%nat (VErr Error "boom")
          world_registered).1)
  ∧ state_of world_registered 5%nat = LError
  ∧ state_of
      (Reentrant.handleError calling_host 5%nat (VErr Error "boom")
         world_registered).1 5%nat
    = LNormal
  ∧ tasks_of
      (Reentrant.handleError calling_host 5%nat (VErr Error "boom")
         world_registered).1 5%nat
    = {[0%nat]}.
Proof.
  split.
  - destruct (proj1 (proj2 (handleError_writes_one_element calling_host 5%nat
                              (VErr Error "boom") world_registered))
                0%nat (FExt 7) eq_refl eq_refl) as (Hrun & Helsewhere & _).
    split; [exact Hrun|]. apply Helsewhere.
    apply elsewhere_kept_delete; vm_compute; reflexivity.
  - repeat split; vm_compute; reflexivity.
Defined.
